(** * Padel scores: rating engine and tier assignment

    A shallow embedding of [calculate_team_trueskill] and [assign_titles]
    from [streamlit_app.py], with the properties the specification states
    about them.

    Modelling choices.
    - A [trueskill.Rating] is a record of its two fields.  Python floats are
      taken as the exact rationals they denote ([Q]); [round(x, 2)] is
      round-half-to-even at two decimals on the exact value, which is what
      CPython computes, followed by normalisation of the fraction so that
      equal ratings are equal terms.
    - The [ratings] dictionary is an association list in insertion order:
      Python dictionaries iterate in insertion order and the order feeds
      the [pd.Series] that is sorted at the end.  [ratings[k]] on a missing
      key raises [KeyError]; the lookup therefore returns an [option] and
      the engine runs in the option monad.
    - [trueskill.rate] is the external two-team update; it is a variable of
      the section, a function from (team 1, team 2, ranks) to the two new
      teams.
    - The engine state carries, next to [ratings], a log of the calls made
      to [rate].  The log is ghost state: nothing reads it, it only records
      what was called with which arguments.
    - The [titles] dictionary is only ever used as a map, so it is a
      [gmap].  [ratings_series.index[i]] out of range raises [IndexError],
      so it is an [option] lookup as well. *)

From Stdlib Require Import QArith Qabs Lqa Sorted Permutation.
From stdpp Require Import gmap strings list fin_maps.

Local Open Scope Z_scope.
#[local] Set Warnings "-clear-no-such-hyp".

(** ** Python dictionaries with insertion order *)

Module Dict.
Section Dict.
Context {V : Type}.

(** [d[k]]; [None] stands for [KeyError]. *)
Fixpoint get (k : string) (d : list (string * V)) : option V :=
  match d with
  | [] => None
  | (k', v) :: d' => if decide (k = k') then Some v else get k d'
  end.

(** [k in d] *)
Definition mem (k : string) (d : list (string * V)) : bool :=
  match get k d with Some _ => true | None => false end.

(** [d[k] = v]: an existing key keeps its position, a new key goes last. *)
Fixpoint set (k : string) (v : V) (d : list (string * V)) : list (string * V) :=
  match d with
  | [] => [(k, v)]
  | (k', v') :: d' =>
      if decide (k = k') then (k, v) :: d' else (k', v') :: set k v d'
  end.

(** [list(d.keys())] *)
Definition keys (d : list (string * V)) : list string := d.*1.
End Dict.
End Dict.

(** ** Data *)

(** [trueskill.Rating(mu=..., sigma=...)], with its [mu] and [sigma]
    attributes. The library keeps the precision [sigma ** -2] and the
    precision-adjusted mean and computes [mu] back from them, which in
    floating point can differ from the argument in the last bit; here the
    attribute is the argument. A statement that gives the rounded value of
    a rating nobody updated does so for the seed 5.25 and for the default
    priors only. The library refuses [sigma = 0]; the statements are about
    the engine once its ratings exist. *)
Record Rating := mkRating { mu : Q; sigma : Q }.

(** One row of the data frame. The scores are the integers that
    [pd.to_numeric] produced. *)
Record Row := mkRow {
  team_1_player_left : string;
  team_1_player_right : string;
  team_2_player_left : string;
  team_2_player_right : string;
  team_1_score : Z;
  team_2_score : Z
}.

(** The [ranks] argument of [trueskill.rate]: [[0, 1]] when team 1 wins,
    [[1, 0]] when team 2 wins. *)
Inductive Ranks := Ranks01 | Ranks10.

(** One logged call [trueskill.rate([team1, team2], ranks=...)]. *)
Record RateCall := mkCall {
  call_team1 : Rating * Rating;
  call_team2 : Rating * Rating;
  call_ranks : Ranks
}.

(** The state of the loop of [calculate_team_trueskill]. *)
Record Engine := mkEngine {
  ratings : list (string * Rating);
  rate_calls : list RateCall
}.

(** The four player cells of a row, in the order of the list literal
    [[t1_p1, t1_p2, t2_p1, t2_p2]]. *)
Definition row_players (row : Row) : list string :=
  [team_1_player_left row; team_1_player_right row;
   team_2_player_left row; team_2_player_right row].

(** ** Rounding and sorting *)

(** [n / d] rounded to the nearest integer, ties to the even one. *)
Definition round_half_even (n : Z) (d : positive) : Z :=
  let q := n / Z.pos d in
  let r := n mod Z.pos d in
  match 2 * r ?= Z.pos d with
  | Lt => q
  | Gt => q + 1
  | Eq => if Z.even q then q else q + 1
  end.

(** [round(x, 2)] *)
Definition round2 (x : Q) : Q :=
  Qred (round_half_even (Qnum x * 100) (Qden x) # 100).

(** Insertion into a list that is sorted by value, largest first; the new
    item goes before the items with the same value. *)
Fixpoint insert_desc (x : string * Q) (l : list (string * Q)) : list (string * Q) :=
  match l with
  | [] => [x]
  | y :: l' =>
      if Qle_bool y.2 x.2 then x :: y :: l' else y :: insert_desc x l'
  end.

(** [series.sort_values(ascending=False)]. pandas does not fix the order
    of items with equal values; here they keep the order of the series.
    No statement below says which of two items with equal values comes
    first. *)
Definition sort_values_desc (series : list (string * Q)) : list (string * Q) :=
  foldr insert_desc [] series.

(** ** The rating engine *)

Section RatingEngine.

(** [trueskill.rate] on two teams of two. *)
Variable rate :
  Rating * Rating -> Rating * Rating -> Ranks ->
  (Rating * Rating) * (Rating * Rating).

(** Lines 17-19: one pass of [if p not in ratings: ratings[p] = Rating(...)]. *)
Definition init_player (starting_mu starting_sigma : Q)
    (d : list (string * Rating)) (p : string) : list (string * Rating) :=
  if Dict.mem p d then d
  else Dict.set p (mkRating starting_mu starting_sigma) d.

(** Lines 17-19: the loop over the four players of the row. *)
Definition init_players (starting_mu starting_sigma : Q)
    (row : Row) (d : list (string * Rating)) : list (string * Rating) :=
  foldl (init_player starting_mu starting_sigma) d (row_players row).

(** Lines 25-26 and 32-33: the four reads that build [team1] and [team2]. *)
Definition read_teams (row : Row) (d : list (string * Rating))
    : option ((Rating * Rating) * (Rating * Rating)) :=
  a1 ← Dict.get (team_1_player_left row) d;
  a2 ← Dict.get (team_1_player_right row) d;
  b1 ← Dict.get (team_2_player_left row) d;
  b2 ← Dict.get (team_2_player_right row) d;
  Some ((a1, a2), (b1, b2)).

(** Lines 28-29 and 35-36: the four writes, left to right, team 1 first. *)
Definition write_teams (row : Row)
    (new : (Rating * Rating) * (Rating * Rating))
    (d : list (string * Rating)) : list (string * Rating) :=
  Dict.set (team_2_player_right row) new.2.2
    (Dict.set (team_2_player_left row) new.2.1
      (Dict.set (team_1_player_right row) new.1.2
        (Dict.set (team_1_player_left row) new.1.1 d))).

(** The body of either game loop: lines 25-29 with [ranks=[0, 1]],
    lines 32-36 with [ranks=[1, 0]]. *)
Definition play_game (row : Row) (ranks : Ranks) (st : Engine) : option Engine :=
  teams ← read_teams row (ratings st);
  Some {| ratings := write_teams row (rate teams.1 teams.2 ranks) (ratings st);
          rate_calls := rate_calls st ++ [mkCall teams.1 teams.2 ranks] |}.

(** [for _ in range(n): <play_game>] *)
Fixpoint play_games (n : nat) (row : Row) (ranks : Ranks) (st : Engine)
    : option Engine :=
  match n with
  | O => Some st
  | S n' => st' ← play_game row ranks st; play_games n' row ranks st'
  end.

(** Lines 13-36: the body of the loop over the rows. [range] of a
    negative number is empty, hence [Z.to_nat]. *)
Definition process_row (starting_mu starting_sigma : Q)
    (row : Row) (st : Engine) : option Engine :=
  let st0 := {| ratings := init_players starting_mu starting_sigma row (ratings st);
                rate_calls := rate_calls st |} in
  st1 ← play_games (Z.to_nat (team_1_score row)) row Ranks01 st0;
  play_games (Z.to_nat (team_2_score row)) row Ranks10 st1.

(** Line 12: [for _, row in df.iterrows()]. *)
Fixpoint process_rows (starting_mu starting_sigma : Q)
    (df : list Row) (st : Engine) : option Engine :=
  match df with
  | [] => Some st
  | row :: df' =>
      st' ← process_row starting_mu starting_sigma row st;
      process_rows starting_mu starting_sigma df' st'
  end.

(** Lines 10-11: the dictionary with its one seeded entry. *)
Definition initial_engine (starting_sigma : Q) : Engine :=
  {| ratings := [("Charlie"%string, mkRating (21 # 4) starting_sigma)];
     rate_calls := [] |}.

(** Lines 10-36: the engine after the last row. *)
Definition run_engine (df : list Row) (starting_mu starting_sigma : Q)
    : option Engine :=
  process_rows starting_mu starting_sigma df (initial_engine starting_sigma).

(** Line 38: [{name: round(rating.mu, 2) for name, rating in ratings.items()}] *)
Definition rounded_ratings (d : list (string * Rating)) : list (string * Q) :=
  map (fun item => (item.1, round2 (mu item.2))) d.

(** [calculate_team_trueskill(df, starting_mu, starting_sigma)]; the
    defaults of the source are [starting_mu=4] and [starting_sigma=1]. *)
Definition calculate_team_trueskill (df : list Row)
    (starting_mu starting_sigma : Q) : option (list (string * Q)) :=
  st ← run_engine df starting_mu starting_sigma;
  Some (sort_values_desc (rounded_ratings (ratings st))).

(** The games of one row as a chain: every game reads the four ratings
    from the dictionary that the game before it wrote, calls [rate] on
    them, and writes the four results back. *)
Inductive game_chain (row : Row)
    : list (string * Rating) -> list RateCall -> list (string * Rating) -> Prop :=
| chain_done d : game_chain row d [] d
| chain_step d teams ranks calls d' :
    read_teams row d = Some teams ->
    game_chain row (write_teams row (rate teams.1 teams.2 ranks) d) calls d' ->
    game_chain row d (mkCall teams.1 teams.2 ranks :: calls) d'.

End RatingEngine.

(** ** The tier assigner *)

(** The five title strings of [assign_titles]: the crown, the gem, and the
    first, second and third place medals. *)
Inductive Title := Challenger | Master | Gold | Silver | Bronze.

(** Lines 68-73: the sizes of the three bands. *)
Definition base_count (remaining_players : Z) : Z := remaining_players / 3.
Definition remainder (remaining_players : Z) : Z := remaining_players mod 3.
Definition bronze_count (remaining_players : Z) : Z :=
  base_count remaining_players
  + (if decide (1 <= remainder remaining_players) then 1 else 0).
Definition silver_count (remaining_players : Z) : Z :=
  base_count remaining_players
  + (if decide (2 <= remainder remaining_players) then 1 else 0).
Definition gold_count (remaining_players : Z) : Z :=
  base_count remaining_players.

(** [titles[ratings_series.index[i]] = t]; [None] stands for [IndexError]. *)
Definition set_title (index : list string) (i : nat) (t : Title)
    (titles : gmap string Title) : option (gmap string Title) :=
  name ← index !! i; Some (<[name := t]> titles).

(** One band loop, lines 77-80, 83-86 and 89-92, on the pair
    [(titles, idx)]:
    [for i in range(count): if idx < total_players: titles[...] = t; idx += 1] *)
Fixpoint tier_loop (count : nat) (t : Title) (index : list string)
    (total_players : nat) (st : gmap string Title * nat)
    : option (gmap string Title * nat) :=
  match count with
  | O => Some st
  | S count' =>
      if decide (st.2 < total_players)%nat then
        titles ← set_title index st.2 t st.1;
        tier_loop count' t index total_players (titles, S st.2)
      else tier_loop count' t index total_players st
  end.

(** [assign_titles(ratings_series)] *)
Definition assign_titles (ratings_series : list (string * Q))
    : option (gmap string Title) :=
  let index := ratings_series.*1 in
  let titles : gmap string Title := ∅ in
  let total_players := length ratings_series in
  if decide (total_players = 0)%nat then Some titles else
  titles ← (if decide (1 <= total_players)%nat
            then set_title index 0 Challenger titles else Some titles);
  titles ← (if decide (2 <= total_players)%nat
            then set_title index 1 Master titles else Some titles);
  titles ← (if decide (3 <= total_players)%nat
            then set_title index 2 Master titles else Some titles);
  let remaining_players := Z.of_nat total_players - 3 in
  if decide (0 < remaining_players) then
    st ← tier_loop (Z.to_nat (gold_count remaining_players)) Gold
           index total_players (titles, 3%nat);
    st ← tier_loop (Z.to_nat (silver_count remaining_players)) Silver
           index total_players st;
    st ← tier_loop (Z.to_nat (bronze_count remaining_players)) Bronze
           index total_players st;
    Some st.1
  else Some titles.

(** ** The page *)

Section App.

Variable rate :
  Rating * Rating -> Rating * Rating -> Ranks ->
  (Rating * Rating) * (Rating * Rating).

(** Lines 130-139: the table that the page shows. [ratings] is computed
    with the default priors, [titles] from it, and the [Title] column is
    [ratings_df['Player'].map(titles)]: the title found under the player,
    nothing ([NaN] in the source, [None] here) for a player without one.
    A row of the table is (title, player, rating). An exception in either
    function sends the page to its [except] branch: no table. *)
Definition leaderboard (df : list Row)
    : option (list (option Title * string * Q)) :=
  ratings ← calculate_team_trueskill rate df 4 1;
  titles ← assign_titles ratings;
  Some ((fun item => (titles !! item.1, item.1, item.2)) <$> ratings).

End App.

(** ** Notions used in the statements *)

(** The keys of a dictionary that starts with the keys [seen] and meets
    the names [ps] one after the other: a name that is not yet a key is
    added at the end, a name that is one changes nothing. *)
Definition first_seen (seen ps : list string) : list string :=
  foldl (fun acc p => if decide (p ∈ acc) then acc else acc ++ [p]) seen ps.


(** The four ratings passed in a call, in the order of the player cells. *)
Definition call_slots (c : RateCall) : list Rating :=
  [(call_team1 c).1; (call_team1 c).2; (call_team2 c).1; (call_team2 c).2].

(** The number of games of a data frame as the loops count them: a
    negative score gives an empty [range]. *)
Definition games_played (df : list Row) : nat :=
  sum_list_with
    (fun row => (Z.to_nat (team_1_score row) + Z.to_nat (team_2_score row))%nat) df.

(** The title that the rank [i] of a ranking of [total_players] players
    is given: the crown for rank 0, the gem for ranks 1 and 2, then the
    gold band, the silver band and, for the rest, the bronze band. *)
Definition rank_tier (total_players i : nat) : Title :=
  let remaining_players := Z.of_nat total_players - 3 in
  if decide (i = 0)%nat then Challenger
  else if decide (i <= 2)%nat then Master
  else if decide (Z.of_nat i < 3 + gold_count remaining_players) then Gold
  else if decide (Z.of_nat i < 3 + gold_count remaining_players
                                 + silver_count remaining_players) then Silver
  else Bronze.

(** [titles] once the ranks below [n] have been given their titles by
    [tier_of]: its keys are the players of these ranks, a player has the
    title of the last of these ranks that is theirs, and every title in
    it is the title of one of these ranks. *)
Definition labelled (index : list string) (tier_of : nat -> Title) (n : nat)
    (titles : gmap string Title) : Prop :=
  dom titles = list_to_set (take n index)
  /\ (forall i p, (i < n)%nat -> index !! i = Some p ->
        (forall j, (i < j < n)%nat -> index !! j <> Some p) ->
        titles !! p = Some (tier_of i))
  /\ (forall p t, titles !! p = Some t ->
        exists i, (i < n)%nat /\ index !! i = Some p /\ t = tier_of i).


(** The four ratings that [rate] returns, in the order of the player
    cells. *)
Definition team_slots (new : (Rating * Rating) * (Rating * Rating))
    : list Rating :=
  [new.1.1; new.1.2; new.2.1; new.2.2].

(** The titles from the lowest to the highest. *)
Definition tier_level (t : Title) : nat :=
  match t with
  | Bronze => 0 | Silver => 1 | Gold => 2 | Master => 3 | Challenger => 4
  end.

(** The titles of a ranking of [total_players] players read from the
    first rank to the last: the crown, two gems, then the gold, the silver
    and the bronze medals, cut to the number of players. *)
Definition tier_column (total_players : nat) : list Title :=
  let remaining_players := Z.of_nat total_players - 3 in
  take total_players
    ([Challenger; Master; Master]
     ++ replicate (Z.to_nat (gold_count remaining_players)) Gold
     ++ replicate (Z.to_nat (silver_count remaining_players)) Silver
     ++ replicate (Z.to_nat (bronze_count remaining_players)) Bronze).

(** Largest value first. *)
Definition desc (a b : string * Q) : Prop := (b.2 <= a.2)%Q.

(** ** Small runs *)

(** A stand-in for [trueskill.rate] to run the engine on: each winner
    gains a quarter of a point, each loser loses a quarter, and every
    [sigma] is halved. *)
Definition toy_rate (t1 t2 : Rating * Rating) (ranks : Ranks)
    : (Rating * Rating) * (Rating * Rating) :=
  let win r := mkRating (Qred (mu r + (1 # 4))) (Qred (sigma r * (1 # 2))) in
  let lose r := mkRating (Qred (mu r - (1 # 4))) (Qred (sigma r * (1 # 2))) in
  match ranks with
  | Ranks01 => ((win t1.1, win t1.2), (lose t2.1, lose t2.2))
  | Ranks10 => ((lose t1.1, lose t1.2), (win t2.1, win t2.2))
  end.

Definition sample_row : Row := mkRow "Ana" "Bo" "Charlie" "Dee" 2 1.

(** A row with Ana on both teams. *)
Definition both_teams_row : Row := mkRow "Ana" "Bo" "Dee" "Ana" 1 1.

(** A row without Charlie, and one with a negative score. *)
Definition no_charlie_row : Row := mkRow "Ana" "Bo" "Dee" "Eve" 2 1.
Definition negative_row : Row := mkRow "Ana" "Bo" "Dee" "Eve" (-2) 1.

(** A ranking of ten players and one of four. *)
Definition ten_players : list (string * Q) :=
  [("p0"%string, 9 # 1); ("p1"%string, 8 # 1); ("p2"%string, 7 # 1);
   ("p3"%string, 6 # 1); ("p4"%string, 5 # 1); ("p5"%string, 4 # 1);
   ("p6"%string, 3 # 1); ("p7"%string, 2 # 1); ("p8"%string, 1 # 1);
   ("p9"%string, 0 # 1)].

Definition four_players : list (string * Q) :=
  [("p0"%string, 9 # 1); ("p1"%string, 8 # 1); ("p2"%string, 7 # 1);
   ("p3"%string, 6 # 1)].


(** * Properties *)

Example sample_run :
  exists ranking,
    calculate_team_trueskill toy_rate [sample_row] 4 1 = Some ranking
    /\ ranking.*2 = [5 # 1; 17 # 4; 17 # 4; 15 # 4]
    /\ ranking ≡ₚ [("Ana"%string, 17 # 4); ("Bo"%string, 17 # 4);
                   ("Charlie"%string, 5 # 1); ("Dee"%string, 15 # 4)].
Proof.
  eexists. split; [vm_compute; reflexivity|]. split; [reflexivity|].
  rewrite (Permutation_swap ("Ana"%string, 17 # 4) ("Charlie"%string, 5 # 1)).
  apply perm_skip,
    (Permutation_swap ("Bo"%string, 17 # 4) ("Charlie"%string, 5 # 1)).
Qed.

Example round2_ties_to_even :
  round2 (1 # 8) = 3 # 25 /\ round2 (3 # 8) = 19 # 50 /\ round2 (-1 # 8) = -3 # 25.
Proof. vm_compute. auto. Qed.

(** ** Dictionaries *)

Section DictFacts.
Context {V : Type}.
Implicit Types (d : list (string * V)) (k : string) (v : V).

Lemma get_None_keys k d : Dict.get k d = None <-> k ∉ Dict.keys d.
Proof.
  unfold Dict.keys. induction d as [|[k' v'] d IH]; simpl.
  - split; [intros _; apply not_elem_of_nil | done].
  - rewrite not_elem_of_cons. destruct (decide (k = k')) as [->|Hne].
    + split; [done | intros [? _]; done].
    + rewrite IH. tauto.
Qed.

Lemma get_Some_keys k d : is_Some (Dict.get k d) <-> k ∈ Dict.keys d.
Proof.
  rewrite <- not_eq_None_Some, get_None_keys.
  split; [apply dec_stable | auto].
Qed.

Lemma mem_keys k d : Dict.mem k d = true <-> k ∈ Dict.keys d.
Proof.
  rewrite <- get_Some_keys. unfold Dict.mem.
  destruct (Dict.get k d); split; intros H; try done; eauto.
Qed.

Lemma mem_false_keys k d : Dict.mem k d = false <-> k ∉ Dict.keys d.
Proof. rewrite <- mem_keys. by destruct (Dict.mem k d). Qed.

Lemma get_set_eq k v d : Dict.get k (Dict.set k v d) = Some v.
Proof.
  induction d as [|[k' v'] d IH]; simpl.
  - by rewrite decide_True.
  - destruct (decide (k = k')) as [->|Hne]; simpl.
    + by rewrite decide_True.
    + by rewrite decide_False.
Qed.

Lemma get_set_ne k k' v d : k ≠ k' -> Dict.get k' (Dict.set k v d) = Dict.get k' d.
Proof.
  intros Hne. induction d as [|[k0 v0] d IH]; simpl.
  - by rewrite decide_False.
  - destruct (decide (k = k0)) as [->|Hne0]; simpl.
    + by rewrite !decide_False.
    + by rewrite IH.
Qed.

Lemma keys_set_old k v d : k ∈ Dict.keys d -> Dict.keys (Dict.set k v d) = Dict.keys d.
Proof.
  unfold Dict.keys. induction d as [|[k' v'] d IH]; simpl.
  - intros H. by apply elem_of_nil in H.
  - intros H. destruct (decide (k = k')) as [->|Hne]; simpl; [done|].
    f_equal. apply IH. apply elem_of_cons in H as [?|?]; done.
Qed.

Lemma keys_set_new k v d : k ∉ Dict.keys d -> Dict.keys (Dict.set k v d) = Dict.keys d ++ [k].
Proof.
  unfold Dict.keys. induction d as [|[k' v'] d IH]; simpl; [done|].
  rewrite not_elem_of_cons. intros [Hne H].
  rewrite decide_False by done. csimpl. by rewrite IH.
Qed.

Lemma get_elem_of k v d :
  NoDup (Dict.keys d) -> (k, v) ∈ d <-> Dict.get k d = Some v.
Proof.
  unfold Dict.keys. induction d as [|[k' v'] d IH]; simpl.
  - intros _. split; [intros H; by apply elem_of_nil in H | done].
  - rewrite NoDup_cons. intros [Hk' Hnd]. rewrite elem_of_cons.
    destruct (decide (k = k')) as [->|Hne].
    + split.
      * intros [[= ->]|Hin]; [done|].
        exfalso. apply Hk'. apply list_elem_of_fmap. by exists (k', v).
      * intros [= ->]. by left.
    + rewrite <- (IH Hnd). split; [intros [[= ? ?]|?]; done | by right].
Qed.
End DictFacts.

(** ** First-seen order *)

Lemma first_seen_app seen ps qs :
  first_seen seen (ps ++ qs) = first_seen (first_seen seen ps) qs.
Proof. apply foldl_app. Qed.

Lemma first_seen_snoc seen ps p :
  first_seen seen (ps ++ [p])
  = if decide (p ∈ first_seen seen ps) then first_seen seen ps
    else first_seen seen ps ++ [p].
Proof. unfold first_seen. by rewrite foldl_snoc. Qed.

Lemma elem_of_first_seen seen ps p :
  p ∈ first_seen seen ps <-> p ∈ seen \/ p ∈ ps.
Proof.
  induction ps as [|q ps IH] using rev_ind.
  - simpl. rewrite elem_of_nil. tauto.
  - rewrite first_seen_snoc, elem_of_app, list_elem_of_singleton.
    case_decide as Hq.
    + rewrite IH. split; [tauto|]. intros [?|[?| ->]]; [tauto..|].
      by apply IH.
    + rewrite elem_of_app, list_elem_of_singleton, IH. tauto.
Qed.

Lemma NoDup_first_seen seen ps : NoDup seen -> NoDup (first_seen seen ps).
Proof.
  intros Hnd. induction ps as [|q ps IH] using rev_ind; [done|].
  rewrite first_seen_snoc. case_decide as Hq; [done|].
  apply NoDup_app. split_and!; [done| |apply NoDup_singleton].
  intros x Hx ->%list_elem_of_singleton. done.
Qed.

(** ** The engine, step by step *)

Section InitFacts.
Variables starting_mu starting_sigma : Q.

Abbreviation prior := (mkRating starting_mu starting_sigma).
Abbreviation init_player := (init_player starting_mu starting_sigma).
Abbreviation init_players := (init_players starting_mu starting_sigma).

Implicit Types (d : list (string * Rating)) (row : Row).

Lemma init_player_keys d p :
  Dict.keys (init_player d p)
  = if decide (p ∈ Dict.keys d) then Dict.keys d else Dict.keys d ++ [p].
Proof.
  unfold init_player. destruct (Dict.mem p d) eqn:E.
  - apply mem_keys in E. by rewrite decide_True.
  - apply mem_false_keys in E. rewrite decide_False by done.
    by apply keys_set_new.
Qed.

Lemma init_fold_keys ps d :
  Dict.keys (foldl init_player d ps) = first_seen (Dict.keys d) ps.
Proof.
  induction ps as [|q ps IH] using rev_ind; [done|].
  by rewrite foldl_snoc, first_seen_snoc, init_player_keys, IH.
Qed.

Lemma init_player_get d p q :
  Dict.get q (init_player d p)
  = match Dict.get q d with
    | Some r => Some r
    | None => if decide (q = p) then Some prior else None
    end.
Proof.
  unfold init_player, Dict.mem. destruct (Dict.get p d) eqn:Ep.
  - destruct (Dict.get q d) eqn:Eq; [done|].
    rewrite decide_False; [done|]. intros ->. congruence.
  - destruct (decide (q = p)) as [->|Hne].
    + by rewrite get_set_eq, Ep.
    + rewrite get_set_ne by done. by destruct (Dict.get q d).
Qed.

Lemma init_fold_get ps d q :
  Dict.get q (foldl init_player d ps)
  = match Dict.get q d with
    | Some r => Some r
    | None => if decide (q ∈ ps) then Some prior else None
    end.
Proof.
  induction ps as [|p ps IH] using rev_ind.
  - cbn [foldl]. destruct (Dict.get q d); [done|].
    rewrite decide_False; [done|]. apply not_elem_of_nil.
  - rewrite foldl_snoc, init_player_get, IH.
    destruct (Dict.get q d); [done|].
    destruct (decide (q ∈ ps)) as [Hin|Hnin].
    + rewrite decide_True; [done|]. apply elem_of_app. by left.
    + destruct (decide (q = p)) as [->|Hne].
      * rewrite decide_True; [done|]. apply elem_of_app. right.
        by apply list_elem_of_singleton.
      * rewrite decide_False; [done|].
        rewrite elem_of_app, list_elem_of_singleton. tauto.
Qed.

Lemma init_players_covers row d p :
  p ∈ row_players row -> p ∈ Dict.keys (init_players row d).
Proof.
  intros Hp. unfold init_players. rewrite init_fold_keys.
  apply elem_of_first_seen. by right.
Qed.

Lemma read_teams_Some row d :
  (forall p, p ∈ row_players row -> p ∈ Dict.keys d) ->
  is_Some (read_teams row d).
Proof.
  intros Hall. unfold read_teams.
  assert (forall p, p ∈ row_players row -> is_Some (Dict.get p d)) as Hget.
  { intros p Hp. apply get_Some_keys. auto. }
  destruct (Hget (team_1_player_left row)) as [a1 ->]; [set_solver|].
  destruct (Hget (team_1_player_right row)) as [a2 ->]; [set_solver|].
  destruct (Hget (team_2_player_left row)) as [b1 ->]; [set_solver|].
  destruct (Hget (team_2_player_right row)) as [b2 ->]; [set_solver|].
  simpl. eauto.
Qed.

Lemma write_teams_keys row new d :
  (forall p, p ∈ row_players row -> p ∈ Dict.keys d) ->
  Dict.keys (write_teams row new d) = Dict.keys d.
Proof.
  intros Hall. unfold write_teams.
  assert (team_1_player_left row ∈ Dict.keys d) as H1
    by (apply Hall; unfold row_players; set_solver +).
  assert (team_1_player_right row ∈ Dict.keys d) as H2
    by (apply Hall; unfold row_players; set_solver +).
  assert (team_2_player_left row ∈ Dict.keys d) as H3
    by (apply Hall; unfold row_players; set_solver +).
  assert (team_2_player_right row ∈ Dict.keys d) as H4
    by (apply Hall; unfold row_players; set_solver +).
  set (d1 := Dict.set (team_1_player_left row) _ d).
  assert (Dict.keys d1 = Dict.keys d) as E1 by by apply keys_set_old.
  set (d2 := Dict.set (team_1_player_right row) _ d1).
  assert (Dict.keys d2 = Dict.keys d) as E2
    by (unfold d2; rewrite keys_set_old; [done | by rewrite E1]).
  set (d3 := Dict.set (team_2_player_left row) _ d2).
  assert (Dict.keys d3 = Dict.keys d) as E3
    by (unfold d3; rewrite keys_set_old; [done | by rewrite E2]).
  rewrite keys_set_old; [done | by rewrite E3].
Qed.

End InitFacts.

(** ** The engine, row by row *)

Section EngineFacts.
Variable rate :
  Rating * Rating -> Rating * Rating -> Ranks ->
  (Rating * Rating) * (Rating * Rating).
Variables starting_mu starting_sigma : Q.

Abbreviation init_players := (init_players starting_mu starting_sigma).
Abbreviation process_row := (process_row rate starting_mu starting_sigma).
Abbreviation process_rows := (process_rows rate starting_mu starting_sigma).

Implicit Types (d : list (string * Rating)) (row : Row) (st : Engine).

Lemma game_chain_app row d1 d2 d3 calls1 calls2 :
  game_chain rate row d1 calls1 d2 ->
  game_chain rate row d2 calls2 d3 ->
  game_chain rate row d1 (calls1 ++ calls2) d3.
Proof.
  induction 1 as [|d teams ranks calls d' Hread _ IH]; intros H2; [done|].
  simpl. apply chain_step; auto.
Qed.

Lemma play_games_spec n row ranks st :
  (forall p, p ∈ row_players row -> p ∈ Dict.keys (ratings st)) ->
  exists calls d',
    play_games rate n row ranks st
      = Some (mkEngine d' (rate_calls st ++ calls))
    /\ game_chain rate row (ratings st) calls d'
    /\ call_ranks <$> calls = replicate n ranks
    /\ Dict.keys d' = Dict.keys (ratings st).
Proof.
  revert st. induction n as [|n IH]; intros st Hall.
  - exists [], (ratings st). simpl. rewrite app_nil_r.
    destruct st; split_and!; [done|constructor|done..].
  - destruct (read_teams_Some row _ Hall) as [teams Hteams].
    simpl. unfold play_game at 1. rewrite Hteams. simpl.
    set (st' := mkEngine _ _).
    destruct (IH st') as (calls & d' & Hrun & Hchain & Hranks & Hkeys).
    { simpl. intros p Hp. rewrite write_teams_keys by done. auto. }
    exists (mkCall teams.1 teams.2 ranks :: calls), d'. split_and!.
    + rewrite Hrun. simpl. by rewrite <- app_assoc.
    + by apply chain_step.
    + csimpl. by rewrite Hranks.
    + rewrite Hkeys. simpl. by apply write_teams_keys.
Qed.
Lemma process_row_spec row st :
  exists calls d',
    process_row row st = Some (mkEngine d' (rate_calls st ++ calls))
    /\ game_chain rate row (init_players row (ratings st)) calls d'
    /\ call_ranks <$> calls
       = replicate (Z.to_nat (team_1_score row)) Ranks01
         ++ replicate (Z.to_nat (team_2_score row)) Ranks10
    /\ Dict.keys d' = first_seen (Dict.keys (ratings st)) (row_players row).
Proof.
  unfold process_row. set (st0 := mkEngine _ _).
  destruct (play_games_spec (Z.to_nat (team_1_score row)) row Ranks01 st0)
    as (calls1 & d1 & Hrun1 & Hchain1 & Hranks1 & Hkeys1).
  { intros p Hp. by apply init_players_covers. }
  set (st1 := mkEngine d1 (rate_calls st0 ++ calls1)).
  destruct (play_games_spec (Z.to_nat (team_2_score row)) row Ranks10 st1)
    as (calls2 & d2 & Hrun2 & Hchain2 & Hranks2 & Hkeys2).
  { simpl. intros p Hp. rewrite Hkeys1. by apply init_players_covers. }
  exists (calls1 ++ calls2), d2. split_and!.
  - cbn zeta. rewrite Hrun1. cbn [mbind option_bind]. fold st1.
    rewrite Hrun2. simpl. by rewrite <- app_assoc.
  - by apply game_chain_app with d1.
  - by rewrite fmap_app, Hranks1, Hranks2.
  - rewrite Hkeys2. simpl. rewrite Hkeys1. simpl. apply init_fold_keys.
Qed.

Lemma process_rows_app pre post st :
  process_rows (pre ++ post) st = process_rows pre st ≫= process_rows post.
Proof.
  revert st. induction pre as [|row pre IH]; intros st; [done|].
  simpl. destruct (process_row row st) as [st'|]; simpl; [apply IH | done].
Qed.

Lemma process_rows_spec df st :
  exists calls d',
    process_rows df st = Some (mkEngine d' (rate_calls st ++ calls))
    /\ Dict.keys d'
       = first_seen (Dict.keys (ratings st)) (flat_map row_players df)
    /\ length calls = games_played df.
Proof.
  revert st. induction df as [|row df IH]; intros st.
  - exists [], (ratings st). rewrite app_nil_r. by destruct st.
  - destruct (process_row_spec row st) as (calls & d' & Hrow & _ & Hranks & Hkeys).
    destruct (IH (mkEngine d' (rate_calls st ++ calls)))
      as (calls' & d'' & Hrun & Hkeys' & Hlen).
    exists (calls ++ calls'), d''.
    change (process_rows (row :: df) st)
      with (process_row row st ≫= process_rows df).
    cbn [flat_map games_played sum_list_with].
    rewrite Hrow. cbn [mbind option_bind]. split_and!.
    + rewrite Hrun. cbn [rate_calls]. by rewrite <- app_assoc.
    + rewrite Hkeys'. cbn [ratings]. by rewrite Hkeys, first_seen_app.
    + rewrite length_app, Hlen. unfold games_played.
      apply (f_equal length) in Hranks.
      rewrite length_fmap, length_app, !length_replicate in Hranks. lia.
Qed.

Lemma run_engine_spec df :
  exists st,
    run_engine rate df starting_mu starting_sigma = Some st
    /\ Dict.keys (ratings st)
       = first_seen ["Charlie"%string] (flat_map row_players df)
    /\ length (rate_calls st) = games_played df.
Proof.
  destruct (process_rows_spec df (initial_engine starting_sigma))
    as (calls & d' & Hrun & Hkeys & Hlen).
  exists (mkEngine d' calls). split_and!; done.
Qed.

Lemma run_engine_NoDup df st :
  run_engine rate df starting_mu starting_sigma = Some st ->
  NoDup (Dict.keys (ratings st)).
Proof.
  intros Hrun. destruct (run_engine_spec df) as (st' & Hrun' & Hkeys & _).
  rewrite Hrun in Hrun'. injection Hrun' as <-. rewrite Hkeys.
  apply NoDup_first_seen, NoDup_singleton.
Qed.

(** The run over [pre ++ row :: post], cut at [row]. *)
Lemma run_engine_split pre row post :
  exists st0 calls d' more d_end,
    run_engine rate pre starting_mu starting_sigma = Some st0
    /\ process_row row st0 = Some (mkEngine d' (rate_calls st0 ++ calls))
    /\ run_engine rate (pre ++ row :: post) starting_mu starting_sigma
       = Some (mkEngine d_end ((rate_calls st0 ++ calls) ++ more))
    /\ call_ranks <$> calls
       = replicate (Z.to_nat (team_1_score row)) Ranks01
         ++ replicate (Z.to_nat (team_2_score row)) Ranks10
    /\ game_chain rate row (init_players row (ratings st0)) calls d'
    /\ NoDup (Dict.keys (init_players row (ratings st0))).
Proof.
  destruct (run_engine_spec pre) as (st0 & Hpre & Hkeys0 & _).
  destruct (process_row_spec row st0) as (calls & d' & Hrow & Hchain & Hranks & _).
  destruct (process_rows_spec post (mkEngine d' (rate_calls st0 ++ calls)))
    as (more & d_end & Hpost & _ & _).
  exists st0, calls, d', more, d_end. split_and!; try done.
  - unfold run_engine in *. rewrite process_rows_app, Hpre.
    cbn [mbind option_bind].
    change (process_rows (row :: post) st0)
      with (process_row row st0 ≫= process_rows post).
    rewrite Hrow. cbn [mbind option_bind]. by rewrite Hpost.
  - unfold init_players. rewrite init_fold_keys.
    apply NoDup_first_seen. by apply (run_engine_NoDup pre).
Qed.

Lemma game_chain_reads row d calls d' :
  game_chain rate row d calls d' ->
  (forall p, p ∈ row_players row -> p ∈ Dict.keys d) ->
  forall c, c ∈ calls ->
    exists dk, Dict.keys dk = Dict.keys d
      /\ read_teams row dk = Some (call_team1 c, call_team2 c).
Proof.
  induction 1 as [|d teams ranks calls d' Hread _ IH]; intros Hall c Hc.
  - by apply elem_of_nil in Hc.
  - apply elem_of_cons in Hc as [->|Hc].
    + exists d. split; [done|]. simpl. by destruct teams.
    + destruct (IH) with (c := c) as (dk & Hkeys & Hdk); [|done|].
      { intros p Hp. rewrite write_teams_keys by done. auto. }
      exists dk. split; [|done]. rewrite Hkeys. by apply write_teams_keys.
Qed.

Lemma read_teams_slots row d c i p :
  read_teams row d = Some (call_team1 c, call_team2 c) ->
  row_players row !! i = Some p ->
  call_slots c !! i = Dict.get p d /\ is_Some (Dict.get p d).
Proof.
  unfold read_teams, call_slots, row_players. intros Hread Hp.
  destruct (Dict.get (team_1_player_left row) d) as [a1|] eqn:E1; [|done].
  destruct (Dict.get (team_1_player_right row) d) as [a2|] eqn:E2; [|done].
  destruct (Dict.get (team_2_player_left row) d) as [b1|] eqn:E3; [|done].
  destruct (Dict.get (team_2_player_right row) d) as [b2|] eqn:E4; [|done].
  simpl in Hread. injection Hread as <- <-.
  destruct i as [|[|[|[|i]]]]; simpl in Hp; try done;
    injection Hp as <-; simpl; split; eauto.
Qed.
End EngineFacts.

(** ** What a game reads and what it leaves *)

Lemma write_teams_get_other row new (d : list (string * Rating)) p :
  p ∉ row_players row ->
  Dict.get p (write_teams row new d) = Dict.get p d.
Proof.
  unfold row_players, write_teams. rewrite !not_elem_of_cons.
  intros (H1 & H2 & H3 & H4 & _). by rewrite !get_set_ne.
Qed.

Lemma write_teams_get_last row new (d : list (string * Rating)) i p :
  row_players row !! i = Some p ->
  (forall j, (i < j)%nat -> row_players row !! j <> Some p) ->
  Dict.get p (write_teams row new d) = team_slots new !! i.
Proof.
  unfold row_players, write_teams, team_slots. intros Hp Hlast.
  destruct i as [|[|[|[|i]]]]; simpl in Hp; try done; injection Hp as <-.
  - pose proof (Hlast 1%nat ltac:(lia)) as H1.
    pose proof (Hlast 2%nat ltac:(lia)) as H2.
    pose proof (Hlast 3%nat ltac:(lia)) as H3. simpl in H1, H2, H3.
    rewrite !get_set_ne by congruence. apply get_set_eq.
  - pose proof (Hlast 2%nat ltac:(lia)) as H2.
    pose proof (Hlast 3%nat ltac:(lia)) as H3. simpl in H2, H3.
    rewrite !get_set_ne by congruence. apply get_set_eq.
  - pose proof (Hlast 3%nat ltac:(lia)) as H3. simpl in H3.
    rewrite !get_set_ne by congruence. apply get_set_eq.
  - apply get_set_eq.
Qed.

Section ChainFacts.
Variable rate :
  Rating * Rating -> Rating * Rating -> Ranks ->
  (Rating * Rating) * (Rating * Rating).

Implicit Types (d : list (string * Rating)) (row : Row).

Lemma game_chain_first row d calls d' c :
  game_chain rate row d calls d' ->
  calls !! 0%nat = Some c ->
  read_teams row d = Some (call_team1 c, call_team2 c).
Proof.
  intros Hchain Hc. destruct Hchain as [|d teams ranks calls d' Hread _]; [done|].
  injection Hc as <-. simpl. by destruct teams.
Qed.

Lemma game_chain_next row d calls d' k c c' :
  game_chain rate row d calls d' ->
  calls !! k = Some c ->
  calls !! S k = Some c' ->
  exists dk,
    read_teams row
      (write_teams row (rate (call_team1 c) (call_team2 c) (call_ranks c)) dk)
    = Some (call_team1 c', call_team2 c').
Proof.
  intros Hchain. revert k.
  induction Hchain as [|d teams ranks calls d' Hread Hchain IH]; intros k Hc Hc';
    [done|].
  destruct k as [|k].
  - injection Hc as <-. simpl in Hc'. exists d. simpl.
    by apply (game_chain_first _ _ _ _ _ Hchain).
  - simpl in Hc, Hc'. by apply (IH k).
Qed.

Lemma game_chain_last row d calls d' c :
  game_chain rate row d calls d' ->
  last calls = Some c ->
  exists dk,
    d' = write_teams row (rate (call_team1 c) (call_team2 c) (call_ranks c)) dk.
Proof.
  induction 1 as [|d teams ranks calls d' Hread Hchain IH]; intros Hlast; [done|].
  destruct calls as [|c2 calls].
  - injection Hlast as <-. inversion Hchain; subst. by exists d.
  - apply IH. exact Hlast.
Qed.

(** The ratings passed in the first call of a chain are the entries of
    the players in the dictionary the chain starts from. *)
Lemma first_call_reads_entries row d calls d' c i p :
  game_chain rate row d calls d' ->
  calls !! 0%nat = Some c ->
  row_players row !! i = Some p ->
  is_Some (Dict.get p d) /\ call_slots c !! i = Dict.get p d.
Proof.
  intros Hchain Hc Hp.
  pose proof (game_chain_first _ _ _ _ _ Hchain Hc) as Hread.
  destruct (read_teams_slots row d c i p Hread Hp). done.
Qed.

(** The ratings passed in a later call are those that [rate] returned in
    the call before it: for each player the one of the last cell that
    names them. *)
Lemma next_call_reads_results row d calls d' k c c' i l p :
  game_chain rate row d calls d' ->
  calls !! k = Some c ->
  calls !! S k = Some c' ->
  row_players row !! i = Some p ->
  row_players row !! l = Some p ->
  (forall l', (l < l')%nat -> row_players row !! l' <> Some p) ->
  call_slots c' !! i
  = team_slots (rate (call_team1 c) (call_team2 c) (call_ranks c)) !! l.
Proof.
  intros Hchain Hc Hc' Hi Hl Hlast.
  destruct (game_chain_next _ _ _ _ _ _ _ Hchain Hc Hc') as (dk & Hread).
  destruct (read_teams_slots row _ c' i p Hread Hi) as [-> _].
  by apply write_teams_get_last.
Qed.

Lemma game_chain_get_other row d calls d' p :
  game_chain rate row d calls d' ->
  p ∉ row_players row ->
  Dict.get p d' = Dict.get p d.
Proof.
  induction 1 as [|d teams ranks calls d' _ _ IH]; intros Hp; [done|].
  rewrite IH by done. by apply write_teams_get_other.
Qed.

Lemma game_chain_keys row d calls d' :
  game_chain rate row d calls d' ->
  (forall p, p ∈ row_players row -> p ∈ Dict.keys d) ->
  Dict.keys d' = Dict.keys d.
Proof.
  induction 1 as [|d teams ranks calls d' Hread _ IH]; intros Hall; [done|].
  rewrite IH.
  - by apply write_teams_keys.
  - intros p Hp. rewrite write_teams_keys by done. auto.
Qed.

(** After the last call the players of the row hold what it returned. *)
Lemma last_call_leaves_results row d calls d' c l p :
  game_chain rate row d calls d' ->
  last calls = Some c ->
  row_players row !! l = Some p ->
  (forall l', (l < l')%nat -> row_players row !! l' <> Some p) ->
  Dict.get p d'
  = team_slots (rate (call_team1 c) (call_team2 c) (call_ranks c)) !! l.
Proof.
  intros Hchain Hc Hl Hlast.
  destruct (game_chain_last _ _ _ _ _ Hchain Hc) as (dk & ->).
  by apply write_teams_get_last.
Qed.
End ChainFacts.

(** ** Rounding *)

Lemma round_half_even_nearest n d :
  2 * Z.abs (n - round_half_even n d * Z.pos d) <= Z.pos d.
Proof.
  unfold round_half_even.
  pose proof (Z.div_mod n (Z.pos d) ltac:(lia)) as Hdm.
  pose proof (Z.mod_pos_bound n (Z.pos d) ltac:(lia)) as Hr.
  set (q := n / Z.pos d) in *. set (r := n mod Z.pos d) in *.
  destruct (Z.compare_spec (2 * r) (Z.pos d)) as [E|E|E];
    [destruct (Z.even q)|..]; nia.
Qed.

(** [round2 x] is a whole number of hundredths, at most half a hundredth
    away from [x]. *)
Lemma round2_nearest x :
  exists k : Z, (round2 x == k # 100)%Q /\ (Qabs (x - (k # 100)) <= 1 # 200)%Q.
Proof.
  exists (round_half_even (Qnum x * 100) (Qden x)). split.
  - unfold round2. apply Qred_correct.
  - pose proof (round_half_even_nearest (Qnum x * 100) (Qden x)) as H.
    destruct x as [n d]. cbn [Qnum Qden] in *.
    set (k := round_half_even (n * 100) d) in *.
    unfold Qle, Qabs, Qminus, Qplus, Qopp. cbn [Qnum Qden].
    rewrite Pos2Z.inj_mul.
    replace (n * 100 + - k * Z.pos d) with (n * 100 - k * Z.pos d) by lia.
    lia.
Qed.

(** ** Sorting *)

Lemma insert_desc_perm x l : insert_desc x l ≡ₚ x :: l.
Proof.
  induction l as [|y l IH]; simpl; [done|].
  destruct (Qle_bool y.2 x.2); [done|].
  rewrite IH. apply Permutation_swap.
Qed.

Lemma sort_values_desc_perm l : sort_values_desc l ≡ₚ l.
Proof.
  induction l as [|x l IH]; simpl; [done|].
  by rewrite insert_desc_perm, IH.
Qed.

Lemma insert_desc_sorted x l :
  StronglySorted desc l -> StronglySorted desc (insert_desc x l).
Proof.
  induction 1 as [|y l Hsorted IH Hall]; simpl.
  - repeat constructor.
  - destruct (Qle_bool y.2 x.2) eqn:E.
    + apply Qle_bool_iff in E. constructor; [by constructor|].
      constructor; [done|].
      eapply Forall_impl; [exact Hall|]. unfold desc. intros z Hz.
      by apply Qle_trans with y.2.
    + constructor; [done|]. rewrite insert_desc_perm. constructor; [|done].
      unfold desc. apply Qlt_le_weak, Qnot_le_lt.
      intros Hle. apply Qle_bool_iff in Hle. congruence.
Qed.

Lemma sort_values_desc_sorted l : StronglySorted desc (sort_values_desc l).
Proof.
  induction l as [|x l IH]; simpl; [constructor|].
  by apply insert_desc_sorted.
Qed.

(** ** The title loops *)

Lemma band_counts remaining_players :
  0 < remaining_players ->
  0 <= gold_count remaining_players
  /\ 0 <= silver_count remaining_players
  /\ 0 <= bronze_count remaining_players
  /\ gold_count remaining_players + silver_count remaining_players
     + bronze_count remaining_players = remaining_players.
Proof.
  intros Hpos. unfold gold_count, silver_count, bronze_count, base_count, remainder.
  pose proof (Z.div_mod remaining_players 3 ltac:(lia)) as Hdm.
  pose proof (Z.mod_pos_bound remaining_players 3 ltac:(lia)) as Hr.
  pose proof (Z.div_pos remaining_players 3 ltac:(lia) ltac:(lia)) as Hq.
  repeat case_decide; lia.
Qed.

Lemma labelled_empty index tier_of : labelled index tier_of 0 ∅.
Proof.
  split_and!; [by rewrite take_0, dom_empty_L | intros i p Hi; lia |].
  intros p t Hp. by rewrite lookup_empty in Hp.
Qed.

Lemma labelled_step index tier_of n titles p :
  labelled index tier_of n titles ->
  index !! n = Some p ->
  labelled index tier_of (S n) (<[p := tier_of n]> titles).
Proof.
  intros (Hdom & Hget & Hfrom) Hp. split_and!.
  - rewrite dom_insert_L, Hdom, (take_S_r _ _ _ Hp), list_to_set_app_L.
    set_solver.
  - intros i q Hi Hq Hlast. destruct (decide (i = n)) as [->|Hne].
    + assert (q = p) as -> by congruence. apply lookup_insert_eq.
    + assert (p <> q) as Hpq.
      { intros ->. apply (Hlast n); [lia | done]. }
      rewrite lookup_insert_ne by done. apply Hget; [lia | done |].
      intros j Hj. apply Hlast. lia.
  - intros q t. destruct (decide (p = q)) as [->|Hpq].
    + rewrite lookup_insert_eq. intros [= <-]. exists n. split_and!; [lia|done..].
    + rewrite lookup_insert_ne by done. intros (i & Hi & Hq & Ht)%Hfrom.
      exists i. split_and!; [lia|done..].
Qed.

Lemma set_title_labelled index tier_of n titles :
  labelled index tier_of n titles ->
  (n < length index)%nat ->
  exists titles',
    set_title index n (tier_of n) titles = Some titles'
    /\ labelled index tier_of (S n) titles'.
Proof.
  intros Hlab Hn. destruct (lookup_lt_is_Some_2 index n Hn) as [p Hp].
  exists (<[p := tier_of n]> titles). split.
  - unfold set_title. by rewrite Hp.
  - by apply labelled_step.
Qed.

Lemma tier_loop_labelled tier_of count t index titles idx :
  labelled index tier_of idx titles ->
  (forall i, (idx <= i < idx + count)%nat -> tier_of i = t) ->
  (idx + count <= length index)%nat ->
  exists titles',
    tier_loop count t index (length index) (titles, idx)
      = Some (titles', (idx + count)%nat)
    /\ labelled index tier_of (idx + count) titles'.
Proof.
  revert titles idx. induction count as [|count IH]; intros titles idx Hlab Ht Hle.
  - exists titles. rewrite Nat.add_0_r. done.
  - cbn [tier_loop fst snd]. rewrite decide_True by lia.
    destruct (set_title_labelled index tier_of idx titles Hlab)
      as (titles1 & Hset & Hlab1); [lia|].
    rewrite Ht in Hset by lia. rewrite Hset. cbn [mbind option_bind].
    destruct (IH titles1 (S idx) Hlab1) as (titles2 & Hrun & Hlab2).
    { intros i Hi. apply Ht. lia. }
    { lia. }
    exists titles2. replace (idx + S count)%nat with (S idx + count)%nat by lia.
    done.
Qed.

Lemma rank_tier_gold total_players i :
  (3 <= i)%nat ->
  Z.of_nat i < 3 + gold_count (Z.of_nat total_players - 3) ->
  rank_tier total_players i = Gold.
Proof.
  intros Hi Hlt. unfold rank_tier.
  rewrite !decide_False by lia. by rewrite decide_True.
Qed.

Lemma rank_tier_silver total_players i :
  (3 <= i)%nat ->
  3 + gold_count (Z.of_nat total_players - 3) <= Z.of_nat i ->
  Z.of_nat i < 3 + gold_count (Z.of_nat total_players - 3)
                 + silver_count (Z.of_nat total_players - 3) ->
  rank_tier total_players i = Silver.
Proof.
  intros Hi Hge Hlt. unfold rank_tier.
  rewrite !decide_False by lia. by rewrite decide_True.
Qed.

Lemma rank_tier_bronze total_players i :
  (3 < total_players)%nat ->
  3 + gold_count (Z.of_nat total_players - 3)
    + silver_count (Z.of_nat total_players - 3) <= Z.of_nat i ->
  rank_tier total_players i = Bronze.
Proof.
  intros Htotal Hge. unfold rank_tier.
  destruct (band_counts (Z.of_nat total_players - 3)) as (Hg & Hs & _); [lia|].
  by rewrite !decide_False by lia.
Qed.

(** [assign_titles] never fails, and what it returns is the map with
    every rank labelled by [rank_tier]. *)
Lemma assign_titles_labelled ratings_series :
  exists titles,
    assign_titles ratings_series = Some titles
    /\ labelled ratings_series.*1 (rank_tier (length ratings_series))
         (length ratings_series) titles.
Proof.
  unfold assign_titles. cbn zeta.
  set (index := ratings_series.*1).
  set (total := length ratings_series).
  assert (length index = total) as Hlen by apply length_fmap.
  set (f := rank_tier total).
  case_decide as H0.
  { exists ∅. split; [done|]. rewrite H0. apply labelled_empty. }
  pose proof (labelled_empty index f) as L0.
  rewrite decide_True by lia.
  destruct (set_title_labelled index f 0 ∅ L0) as (t1 & E1 & L1); [lia|].
  change (f 0%nat) with Challenger in E1. rewrite E1. cbn [mbind option_bind].
  destruct (decide (2 <= total)%nat) as [H2|H2]; cbn [mbind option_bind].
  2:{ rewrite decide_False by lia. cbn [mbind option_bind].
      rewrite decide_False by lia. exists t1. split; [done|].
      by replace total with 1%nat by lia. }
  destruct (set_title_labelled index f 1 t1 L1) as (t2 & E2 & L2); [lia|].
  change (f 1%nat) with Master in E2. rewrite E2. cbn [mbind option_bind].
  destruct (decide (3 <= total)%nat) as [H3|H3]; cbn [mbind option_bind].
  2:{ rewrite decide_False by lia. exists t2. split; [done|].
      by replace total with 2%nat by lia. }
  destruct (set_title_labelled index f 2 t2 L2) as (t3 & E3 & L3); [lia|].
  change (f 2%nat) with Master in E3. rewrite E3. cbn [mbind option_bind].
  destruct (decide (0 < Z.of_nat total - 3)) as [Hrem|Hrem].
  2:{ exists t3. split; [done|]. by replace total with 3%nat by lia. }
  destruct (band_counts _ Hrem) as (Hg & Hs & Hb & Hsum).
  set (g := Z.to_nat (gold_count (Z.of_nat total - 3))) in *.
  set (sv := Z.to_nat (silver_count (Z.of_nat total - 3))) in *.
  set (b := Z.to_nat (bronze_count (Z.of_nat total - 3))) in *.
  destruct (tier_loop_labelled f g Gold index t3 3 L3) as (t4 & E4 & L4).
  { intros i Hi. apply rank_tier_gold; lia. }
  { lia. }
  rewrite Hlen in E4. rewrite E4. cbn [mbind option_bind].
  destruct (tier_loop_labelled f sv Silver index t4 (3 + g) L4) as (t5 & E5 & L5).
  { intros i Hi. apply rank_tier_silver; lia. }
  { lia. }
  rewrite Hlen in E5. rewrite E5. cbn [mbind option_bind].
  destruct (tier_loop_labelled f b Bronze index t5 (3 + g + sv) L5) as (t6 & E6 & L6).
  { intros i Hi. apply rank_tier_bronze; lia. }
  { lia. }
  rewrite Hlen in E6. rewrite E6. cbn [mbind option_bind fst]. exists t6. split; [done|].
  by replace total with (3 + g + sv + b)%nat by lia.
Qed.

(** * The claims about the rating engine *)

(** C1. A row with the scores [s1] and [s2], wherever it stands in the
    data frame, makes the engine call [rate] exactly [s1 + s2] times: first
    [s1] calls with team 1 as the winner, then [s2] calls with team 2 as the
    winner. The calls form a chain: each call is made on the four ratings
    read from the dictionary as the call before it left it, the first one
    on the dictionary as it is once the players of the row have their
    entries. In terms of the entries: the first call is passed, for every
    cell, the entry of its player in that dictionary; every later call is
    passed, for every cell, the rating that [rate] returned for its player
    in the call just before (the one of the last cell that names the
    player, which is the cell itself when the four players are distinct),
    not the rating from before the games of the row; and what the last
    call returned is what the dictionary holds after the row. *)
Theorem row_games_in_sequence rate starting_mu starting_sigma pre row post :
  0 <= team_1_score row ->
  0 <= team_2_score row ->
  exists st0 calls d' more d_end,
    run_engine rate pre starting_mu starting_sigma = Some st0
    /\ process_row rate starting_mu starting_sigma row st0
       = Some (mkEngine d' (rate_calls st0 ++ calls))
    /\ run_engine rate (pre ++ row :: post) starting_mu starting_sigma
       = Some (mkEngine d_end ((rate_calls st0 ++ calls) ++ more))
    /\ Z.of_nat (length calls) = team_1_score row + team_2_score row
    /\ call_ranks <$> calls
       = replicate (Z.to_nat (team_1_score row)) Ranks01
         ++ replicate (Z.to_nat (team_2_score row)) Ranks10
    /\ game_chain rate row
         (init_players starting_mu starting_sigma row (ratings st0)) calls d'
    /\ (forall c i p,
          calls !! 0%nat = Some c ->
          row_players row !! i = Some p ->
          is_Some (Dict.get p
                     (init_players starting_mu starting_sigma row (ratings st0)))
          /\ call_slots c !! i
             = Dict.get p
                 (init_players starting_mu starting_sigma row (ratings st0)))
    /\ (forall k c c' i l p,
          calls !! k = Some c ->
          calls !! S k = Some c' ->
          row_players row !! i = Some p ->
          row_players row !! l = Some p ->
          (forall l', (l < l')%nat -> row_players row !! l' <> Some p) ->
          call_slots c' !! i
          = team_slots (rate (call_team1 c) (call_team2 c) (call_ranks c)) !! l)
    /\ (forall c l p,
          last calls = Some c ->
          row_players row !! l = Some p ->
          (forall l', (l < l')%nat -> row_players row !! l' <> Some p) ->
          Dict.get p d'
          = team_slots (rate (call_team1 c) (call_team2 c) (call_ranks c)) !! l)
    /\ (forall p, p ∉ row_players row ->
          Dict.get p d' = Dict.get p (ratings st0)).
Proof.
  intros Hs1 Hs2.
  destruct (run_engine_split rate starting_mu starting_sigma pre row post)
    as (st0 & calls & d' & more & d_end & Hpre & Hrow & Hrun & Hranks & Hchain & _).
  exists st0, calls, d', more, d_end. split_and!; try done.
  - apply (f_equal length) in Hranks.
    rewrite length_fmap, length_app, !length_replicate in Hranks. lia.
  - intros c i p Hc Hp.
    exact (first_call_reads_entries rate row _ calls d' c i p Hchain Hc Hp).
  - intros k c c' i l p Hc Hc' Hi Hl Hlast.
    exact (next_call_reads_results rate row _ calls d' k c c' i l p
             Hchain Hc Hc' Hi Hl Hlast).
  - intros c l p Hc Hl Hlast.
    exact (last_call_leaves_results rate row _ calls d' c l p Hchain Hc Hl Hlast).
  - intros p Hp. rewrite (game_chain_get_other rate _ _ _ _ _ Hchain Hp).
    unfold init_players. rewrite init_fold_get.
    destruct (Dict.get p (ratings st0)); [done|]. by rewrite decide_False.
Qed.

Lemma row_games_in_sequence_witness :
  exists calls d',
    process_row toy_rate 4 1 sample_row (initial_engine 1)
      = Some (mkEngine d' calls)
    /\ length calls = 3%nat
    /\ call_ranks <$> calls = [Ranks01; Ranks01; Ranks10]
    /\ game_chain toy_rate sample_row
         (init_players 4 1 sample_row (ratings (initial_engine 1))) calls d'
    /\ (forall c, calls !! 0%nat = Some c ->
          call_slots c !! 0%nat = Some (mkRating 4 1))
    /\ (forall c c', calls !! 0%nat = Some c -> calls !! 1%nat = Some c' ->
          call_slots c' !! 0%nat
          = team_slots (toy_rate (call_team1 c) (call_team2 c) (call_ranks c))
              !! 0%nat).
Proof.
  destruct (row_games_in_sequence toy_rate 4 1 [] sample_row [])
    as (st0 & calls & d' & more & d_end & Hpre & Hrow & _ & Hlen & Hranks & Hchain
        & Hfirst & Hnext & _);
    [simpl; lia | simpl; lia |].
  injection Hpre as <-.
  exists calls, d'.
  split_and!; [exact Hrow | simpl in Hlen; lia | exact Hranks | exact Hchain | |].
  - intros c Hc. destruct (Hfirst c 0%nat "Ana"%string Hc eq_refl) as [_ ->].
    reflexivity.
  - intros c c' Hc Hc'.
    apply (Hnext 0%nat c c' 0%nat 0%nat "Ana"%string Hc Hc' eq_refl eq_refl).
    intros l' Hl'. destruct l' as [|[|[|[|l']]]]; simpl; [lia|discriminate..].
Defined.


(** C5. On the empty data frame the ranking is Charlie alone, with the
    rating 5.25, and the titles of that ranking are the crown for
    Charlie and nothing else. *)
Theorem no_matches_only_charlie rate starting_mu starting_sigma :
  calculate_team_trueskill rate [] starting_mu starting_sigma
  = Some [("Charlie"%string, 21 # 4)]
  /\ (21 # 4 == 5.25)%Q
  /\ assign_titles [("Charlie"%string, 21 # 4)]
     = Some {["Charlie"%string := Challenger]}.
Proof.
  split_and!; [done..|].
  unfold assign_titles, set_title. simpl. by rewrite insert_empty.
Qed.

(** C6. The ranking has one item for every player of the dictionary as
    the last row left it, the item pairs the player with [round(mu, 2)]
    of their rating, a whole number of hundredths at most half a hundredth
    away from [mu], and the items are in descending order of that
    value. *)
Theorem ranking_rounded_and_sorted rate df starting_mu starting_sigma :
  exists st ranking,
    run_engine rate df starting_mu starting_sigma = Some st
    /\ calculate_team_trueskill rate df starting_mu starting_sigma = Some ranking
    /\ NoDup ranking.*1
    /\ (forall p x, (p, x) ∈ ranking <->
          exists r, Dict.get p (ratings st) = Some r /\ x = round2 (mu r))
    /\ (forall p x, (p, x) ∈ ranking ->
          exists r k, Dict.get p (ratings st) = Some r
            /\ (x == k # 100)%Q /\ (Qabs (mu r - x) <= 1 # 200)%Q)
    /\ StronglySorted desc ranking.
Proof.
  destruct (run_engine_spec rate starting_mu starting_sigma df)
    as (st & Hrun & _ & _).
  pose proof (run_engine_NoDup rate starting_mu starting_sigma df st Hrun) as Hnd.
  exists st, (sort_values_desc (rounded_ratings (ratings st))).
  assert (forall p x, (p, x) ∈ sort_values_desc (rounded_ratings (ratings st)) <->
            exists r, Dict.get p (ratings st) = Some r /\ x = round2 (mu r)) as Hitems.
  { intros p x. rewrite sort_values_desc_perm. unfold rounded_ratings.
    rewrite list_elem_of_fmap. split.
    - intros ([p' r] & [= -> ->] & Hin). exists r. split; [|done].
      by apply get_elem_of.
    - intros (r & Hget & ->). exists (p, r). split; [done|].
      by apply get_elem_of. }
  split_and!.
  - done.
  - unfold calculate_team_trueskill. by rewrite Hrun.
  - rewrite sort_values_desc_perm. unfold rounded_ratings.
    rewrite <- list_fmap_compose. exact Hnd.
  - exact Hitems.
  - intros p x (r & Hget & ->)%Hitems.
    destruct (round2_nearest (mu r)) as (k & Hk & Hclose).
    exists r, k. split_and!; [done..|]. by rewrite Hk.
  - apply sort_values_desc_sorted.
Qed.



(** C8. A row with both scores 0 makes no call to [rate]: all it does is
    the initialisation of its players. An entry that exists keeps its
    rating, a player of the row without an entry gets
    [(starting_mu, starting_sigma)], and wherever the row stands in the
    data frame its four players are in the ranking that is returned. *)
Theorem scoreless_row_only_initialises rate starting_mu starting_sigma row st :
  team_1_score row = 0 ->
  team_2_score row = 0 ->
  process_row rate starting_mu starting_sigma row st
  = Some (mkEngine (init_players starting_mu starting_sigma row (ratings st))
                   (rate_calls st))
  /\ (forall p r,
        Dict.get p (ratings st) = Some r ->
        Dict.get p (init_players starting_mu starting_sigma row (ratings st))
        = Some r)
  /\ (forall p,
        p ∈ row_players row ->
        Dict.get p (ratings st) = None ->
        Dict.get p (init_players starting_mu starting_sigma row (ratings st))
        = Some (mkRating starting_mu starting_sigma))
  /\ (forall pre post, exists ranking,
        calculate_team_trueskill rate (pre ++ row :: post)
          starting_mu starting_sigma = Some ranking
        /\ forall p, p ∈ row_players row -> p ∈ ranking.*1).
Proof.
  intros Hs1 Hs2. split_and!.
  - unfold process_row. by rewrite Hs1, Hs2.
  - intros p r Hget. unfold init_players. by rewrite init_fold_get, Hget.
  - intros p Hp Hget. unfold init_players.
    by rewrite init_fold_get, Hget, decide_True.
  - intros pre post.
    destruct (run_engine_spec rate starting_mu starting_sigma (pre ++ row :: post))
      as (st' & Hrun & Hkeys & _).
    exists (sort_values_desc (rounded_ratings (ratings st'))). split.
    + unfold calculate_team_trueskill. by rewrite Hrun.
    + intros p Hp. rewrite sort_values_desc_perm. unfold rounded_ratings.
      rewrite <- list_fmap_compose. change (p ∈ Dict.keys (ratings st')).
      rewrite Hkeys. apply elem_of_first_seen. right.
      apply list_elem_of_In, in_flat_map. exists row. split.
      * apply in_or_app. right. by left.
      * by apply list_elem_of_In.
Qed.

Lemma scoreless_row_only_initialises_witness :
  process_row toy_rate 4 1 (mkRow "Ana" "Bo" "Charlie" "Dee" 0 0) (initial_engine 1)
  = Some (mkEngine [("Charlie"%string, mkRating (21 # 4) 1);
                    ("Ana"%string, mkRating 4 1);
                    ("Bo"%string, mkRating 4 1);
                    ("Dee"%string, mkRating 4 1)] []).
Proof.
  exact (proj1 (scoreless_row_only_initialises toy_rate 4 1
                  (mkRow "Ana" "Bo" "Charlie" "Dee" 0 0) (initial_engine 1)
                  eq_refl eq_refl)).
Defined.

(** C9. A row that names the same player [p] in two of its cells, [i] and
    [j], on one team or on both, is processed without an error, and so is
    the data frame around it. The dictionary has one entry for each key
    before the games of the row and the same keys after them, so [p] has a
    single entry throughout. In the first call of the row both cells are
    passed that entry: the rating [p] had before the row, or the priors if
    [p] is new. In every later call both cells are passed the one rating
    that the call before left under [p], which is what [rate] returned for
    the last cell that names [p]; and that of the last call is the entry
    of [p] after the row. *)
Theorem repeated_player_is_accepted rate starting_mu starting_sigma
    pre row post (i j : nat) (p : string) :
  i <> j ->
  row_players row !! i = Some p ->
  row_players row !! j = Some p ->
  exists st0 calls d' more d_end,
    run_engine rate pre starting_mu starting_sigma = Some st0
    /\ process_row rate starting_mu starting_sigma row st0
       = Some (mkEngine d' (rate_calls st0 ++ calls))
    /\ run_engine rate (pre ++ row :: post) starting_mu starting_sigma
       = Some (mkEngine d_end ((rate_calls st0 ++ calls) ++ more))
    /\ length calls
       = (Z.to_nat (team_1_score row) + Z.to_nat (team_2_score row))%nat
    /\ (forall c, c ∈ calls ->
         exists d r,
           NoDup (Dict.keys d)
           /\ Dict.get p d = Some r
           /\ call_slots c !! i = Some r
           /\ call_slots c !! j = Some r)
    /\ NoDup (Dict.keys (init_players starting_mu starting_sigma row (ratings st0)))
    /\ Dict.keys d'
       = Dict.keys (init_players starting_mu starting_sigma row (ratings st0))
    /\ (exists r0,
          Dict.get p (init_players starting_mu starting_sigma row (ratings st0))
          = Some r0
          /\ r0 = match Dict.get p (ratings st0) with
                  | Some r => r
                  | None => mkRating starting_mu starting_sigma
                  end
          /\ forall c, calls !! 0%nat = Some c ->
               call_slots c !! i = Some r0 /\ call_slots c !! j = Some r0)
    /\ (forall k c c' l,
          calls !! k = Some c ->
          calls !! S k = Some c' ->
          row_players row !! l = Some p ->
          (forall l', (l < l')%nat -> row_players row !! l' <> Some p) ->
          call_slots c' !! i
          = team_slots (rate (call_team1 c) (call_team2 c) (call_ranks c)) !! l
          /\ call_slots c' !! j
             = team_slots (rate (call_team1 c) (call_team2 c) (call_ranks c)) !! l)
    /\ (forall c l,
          last calls = Some c ->
          row_players row !! l = Some p ->
          (forall l', (l < l')%nat -> row_players row !! l' <> Some p) ->
          Dict.get p d'
          = team_slots (rate (call_team1 c) (call_team2 c) (call_ranks c)) !! l).
Proof.
  intros _ Hi Hj.
  destruct (run_engine_split rate starting_mu starting_sigma pre row post)
    as (st0 & calls & d' & more & d_end & Hpre & Hrow & Hrun & Hranks & Hchain & Hnd).
  assert (forall q, q ∈ row_players row ->
            q ∈ Dict.keys (init_players starting_mu starting_sigma row (ratings st0)))
    as Hall.
  { intros q Hq. by apply init_players_covers. }
  exists st0, calls, d', more, d_end. split_and!; try done.
  - apply (f_equal length) in Hranks.
    by rewrite length_fmap, length_app, !length_replicate in Hranks.
  - intros c Hc.
    destruct (game_chain_reads rate row _ calls d' Hchain) with (c := c)
      as (dk & Hkeys & Hread); [done|done|].
    destruct (read_teams_slots row dk c i p Hread Hi) as (Hsi & [r Hr]).
    destruct (read_teams_slots row dk c j p Hread Hj) as (Hsj & _).
    exists dk, r. split_and!; [by rewrite Hkeys | done | congruence..].
  - exact (game_chain_keys rate row _ calls d' Hchain Hall).
  - assert (p ∈ row_players row) as Hp by (by apply list_elem_of_lookup_2 in Hi).
    assert (Dict.get p (init_players starting_mu starting_sigma row (ratings st0))
            = Some match Dict.get p (ratings st0) with
                   | Some r => r
                   | None => mkRating starting_mu starting_sigma
                   end) as Hget.
    { unfold init_players. rewrite init_fold_get.
      destruct (Dict.get p (ratings st0)); [done|]. by rewrite decide_True. }
    eexists. split_and!; [exact Hget | done |].
    intros c Hc.
    destruct (first_call_reads_entries rate row _ calls d' c i p Hchain Hc Hi)
      as [_ Hsi].
    destruct (first_call_reads_entries rate row _ calls d' c j p Hchain Hc Hj)
      as [_ Hsj].
    by rewrite Hsi, Hsj, Hget.
  - intros k c c' l Hc Hc' Hl Hlast. split.
    + exact (next_call_reads_results rate row _ calls d' k c c' i l p
               Hchain Hc Hc' Hi Hl Hlast).
    + exact (next_call_reads_results rate row _ calls d' k c c' j l p
               Hchain Hc Hc' Hj Hl Hlast).
  - intros c l Hc Hl Hlast.
    exact (last_call_leaves_results rate row _ calls d' c l p Hchain Hc Hl Hlast).
Qed.

Lemma repeated_player_is_accepted_witness :
  exists st0 calls d',
    run_engine toy_rate [sample_row] 4 1 = Some st0
    /\ process_row toy_rate 4 1 both_teams_row st0
       = Some (mkEngine d' (rate_calls st0 ++ calls))
    /\ length calls = 2%nat
    /\ (forall c, c ∈ calls -> call_slots c !! 0%nat = call_slots c !! 3%nat)
    /\ (forall c, calls !! 0%nat = Some c ->
          call_slots c !! 0%nat = Dict.get "Ana" (ratings st0)
          /\ call_slots c !! 3%nat = Dict.get "Ana" (ratings st0))
    /\ (forall c c', calls !! 0%nat = Some c -> calls !! 1%nat = Some c' ->
          call_slots c' !! 0%nat
          = team_slots (toy_rate (call_team1 c) (call_team2 c) (call_ranks c))
              !! 3%nat
          /\ call_slots c' !! 3%nat
             = team_slots (toy_rate (call_team1 c) (call_team2 c) (call_ranks c))
                 !! 3%nat).
Proof.
  destruct (repeated_player_is_accepted toy_rate 4 1
              [sample_row] both_teams_row [] 0 3 "Ana")
    as (st0 & calls & d' & more & d_end & Hpre & Hrow & _ & Hlen & Hcalls
        & _ & _ & (r0 & _ & Hr0 & Hfirst) & Hnext & _);
    [lia | reflexivity | reflexivity |].
  exists st0, calls, d'.
  split_and!; [exact Hpre | exact Hrow | exact Hlen | | |].
  - intros c Hc. destruct (Hcalls c Hc) as (d & r & _ & _ & Hi & Hj).
    by rewrite Hi, Hj.
  - intros c Hc. destruct (Hfirst c Hc) as [-> ->].
    vm_compute in Hpre. injection Hpre as <-. subst r0. split; reflexivity.
  - intros c c' Hc Hc'. apply (Hnext 0%nat c c' 3%nat Hc Hc' eq_refl).
    intros l' Hl'. destruct l' as [|[|[|[|l']]]]; simpl; (lia || discriminate).
Defined.

(** * The claims about the tier assigner *)

Lemma assign_titles_ranks ratings_series :
  exists titles,
    assign_titles ratings_series = Some titles
    /\ dom titles = list_to_set ratings_series.*1
    /\ (forall i p,
          ratings_series.*1 !! i = Some p ->
          (forall j, (i < j)%nat -> ratings_series.*1 !! j <> Some p) ->
          titles !! p = Some (rank_tier (length ratings_series) i))
    /\ (forall p t,
          titles !! p = Some t ->
          exists i, ratings_series.*1 !! i = Some p
                    /\ t = rank_tier (length ratings_series) i).
Proof.
  destruct (assign_titles_labelled ratings_series)
    as (titles & Hrun & Hdom & Hget & Hfrom).
  exists titles. split_and!; [done| | |].
  - rewrite Hdom, take_ge; [done|]. by rewrite length_fmap.
  - intros i p Hp Hlast. apply Hget; [|done|].
    + apply lookup_lt_Some in Hp. by rewrite length_fmap in Hp.
    + intros j Hj. apply Hlast. lia.
  - intros p t (i & _ & Hp & Ht)%Hfrom. by exists i.
Qed.

(** C2. With more than three players, and [remaining] the number of
    players less 3, the bands have the sizes
    [gold = remaining div 3],
    [silver = remaining div 3 + (1 if remaining mod 3 >= 2 else 0)] and
    [bronze = remaining div 3 + (1 if remaining mod 3 >= 1 else 0)], they
    fill the ranks from 3 to the last one, and the player of a rank has
    the medal of the band of that rank: gold for the first [gold] ranks
    from 3 on, silver for the next [silver] ranks, bronze for the last
    [bronze] ranks. (The player [p] of the rank [i] is asked not to
    stand at a later rank as well; the players of a ranking are
    distinct.) With ten players the ranks 3 and 4 are gold, 5 and 6
    silver, 7 to 9 bronze. *)
Theorem bands_after_the_top_three ratings_series :
  (3 < length ratings_series)%nat ->
  let remaining := Z.of_nat (length ratings_series) - 3 in
  let gold := remaining / 3 in
  let silver := remaining / 3 + (if decide (2 <= remaining mod 3) then 1 else 0) in
  let bronze := remaining / 3 + (if decide (1 <= remaining mod 3) then 1 else 0) in
  exists titles,
    assign_titles ratings_series = Some titles
    /\ gold_count remaining = gold
    /\ silver_count remaining = silver
    /\ bronze_count remaining = bronze
    /\ 3 + gold + silver + bronze = Z.of_nat (length ratings_series)
    /\ (forall i p,
          ratings_series.*1 !! i = Some p ->
          (forall j, (i < j)%nat -> ratings_series.*1 !! j <> Some p) ->
          (3 <= Z.of_nat i < 3 + gold -> titles !! p = Some Gold)
          /\ (3 + gold <= Z.of_nat i < 3 + gold + silver ->
              titles !! p = Some Silver)
          /\ (3 + gold + silver <= Z.of_nat i < 3 + gold + silver + bronze ->
              titles !! p = Some Bronze))
    /\ (length ratings_series = 10%nat ->
        forall i p,
          ratings_series.*1 !! i = Some p ->
          (forall j, (i < j)%nat -> ratings_series.*1 !! j <> Some p) ->
          (3 <= i <= 4 -> titles !! p = Some Gold)%nat
          /\ (5 <= i <= 6 -> titles !! p = Some Silver)%nat
          /\ (7 <= i <= 9 -> titles !! p = Some Bronze)%nat).
Proof.
  intros Htotal remaining gold silver bronze.
  destruct (assign_titles_ranks ratings_series) as (titles & Hrun & _ & Hget & _).
  destruct (band_counts remaining) as (Hg & Hs & Hb & Hsum); [unfold remaining; lia|].
  assert (gold_count remaining = gold) as Eg by done.
  assert (silver_count remaining = silver) as Es by done.
  assert (bronze_count remaining = bronze) as Eb by done.
  assert (remaining = Z.of_nat (length ratings_series) - 3) as Er by done.
  clearbody gold silver bronze remaining.
  rewrite Eg, Es, Eb in *.
  assert (forall i p,
            ratings_series.*1 !! i = Some p ->
            (forall j, (i < j)%nat -> ratings_series.*1 !! j <> Some p) ->
            (3 <= Z.of_nat i < 3 + gold -> titles !! p = Some Gold)
            /\ (3 + gold <= Z.of_nat i < 3 + gold + silver ->
                titles !! p = Some Silver)
            /\ (3 + gold + silver <= Z.of_nat i < 3 + gold + silver + bronze ->
                titles !! p = Some Bronze)) as Hbands.
  { intros i p Hp Hlast. rewrite (Hget i p Hp Hlast).
    split_and!; intros Hi; f_equal.
    - apply rank_tier_gold; [lia|]. rewrite <- Er, Eg. apply Hi.
    - apply rank_tier_silver; rewrite <- ?Er, ?Eg, ?Es; lia.
    - apply rank_tier_bronze; [done|]. rewrite <- Er, Eg, Es. apply Hi. }
  exists titles. split_and!; try done.
  - lia.
  - intros Hten i p Hp Hlast.
    destruct (Hbands i p Hp Hlast) as (Hgold & Hsilver & Hbronze).
    assert (remaining = 7) as E7 by lia. rewrite E7 in Eg, Es.
    assert (gold = 2) as -> by (by rewrite <- Eg).
    assert (silver = 2) as -> by (by rewrite <- Es).
    split_and!; intros Hi; [apply Hgold | apply Hsilver | apply Hbronze]; lia.
Qed.

Lemma bands_after_the_top_three_witness :
  exists titles,
    assign_titles ten_players = Some titles
    /\ titles !! "p3"%string = Some Gold /\ titles !! "p4"%string = Some Gold
    /\ titles !! "p5"%string = Some Silver /\ titles !! "p6"%string = Some Silver
    /\ titles !! "p7"%string = Some Bronze /\ titles !! "p8"%string = Some Bronze
    /\ titles !! "p9"%string = Some Bronze.
Proof.
  destruct (bands_after_the_top_three ten_players)
    as (titles & Hrun & _ & _ & _ & _ & _ & Hten); [simpl; lia|].
  assert (forall i p, ten_players.*1 !! i = Some p ->
            forall j, (i < j)%nat -> ten_players.*1 !! j <> Some p) as Hlast.
  { intros i p Hi j Hj Hp.
    assert (NoDup ten_players.*1) as Hnd
      by (apply (bool_decide_unpack _); vm_compute; exact I).
    pose proof (NoDup_lookup _ i j p Hnd Hi Hp). lia. }
  exists titles. split; [exact Hrun|].
  split_and!.
  - apply (Hten eq_refl 3%nat); [done | by apply Hlast | lia].
  - apply (Hten eq_refl 4%nat); [done | by apply Hlast | lia].
  - apply (Hten eq_refl 5%nat); [done | by apply Hlast | lia].
  - apply (Hten eq_refl 6%nat); [done | by apply Hlast | lia].
  - apply (Hten eq_refl 7%nat); [done | by apply Hlast | lia].
  - apply (Hten eq_refl 8%nat); [done | by apply Hlast | lia].
  - apply (Hten eq_refl 9%nat); [done | by apply Hlast | lia].
Defined.

(** C3. For a ranking of any length [assign_titles] returns a mapping
    whose keys are exactly the players of the ranking: every player of
    the ranking has a title, one title, and nobody else has one. With
    distinct players the mapping has as many entries as the ranking has
    items. The empty ranking gives the empty mapping. *)
Theorem titles_cover_the_ranking ratings_series :
  (exists titles,
     assign_titles ratings_series = Some titles
     /\ dom titles = list_to_set ratings_series.*1
     /\ (forall p, p ∈ ratings_series.*1 <-> exists t, titles !! p = Some t)
     /\ (forall p t1 t2,
           titles !! p = Some t1 -> titles !! p = Some t2 -> t1 = t2)
     /\ (NoDup ratings_series.*1 -> size titles = length ratings_series))
  /\ assign_titles [] = Some ∅.
Proof.
  split; [|done].
  destruct (assign_titles_ranks ratings_series) as (titles & Hrun & Hdom & _).
  exists titles. split_and!; [done..| | |].
  - intros p. rewrite <- (elem_of_list_to_set (C := gset string)), <- Hdom.
    apply elem_of_dom.
  - intros p t1 t2 H1 H2. congruence.
  - intros Hnd. rewrite <- size_dom, Hdom, size_list_to_set by done.
    apply length_fmap.
Qed.

(** C10. With exactly four players one player is left after the top
    three; the gold and the silver band are empty, the bronze band has
    one place, the player of rank 3 has the bronze medal, and nobody has
    the gold or the silver one. *)
Theorem fourth_of_four_is_bronze ratings_series :
  length ratings_series = 4%nat ->
  exists titles,
    assign_titles ratings_series = Some titles
    /\ gold_count (Z.of_nat (length ratings_series) - 3) = 0
    /\ silver_count (Z.of_nat (length ratings_series) - 3) = 0
    /\ bronze_count (Z.of_nat (length ratings_series) - 3) = 1
    /\ (forall p, ratings_series.*1 !! 3%nat = Some p ->
          titles !! p = Some Bronze)
    /\ (forall p, titles !! p <> Some Gold /\ titles !! p <> Some Silver).
Proof.
  intros Hfour.
  destruct (assign_titles_ranks ratings_series)
    as (titles & Hrun & _ & Hget & Hfrom).
  rewrite Hfour in *. exists titles. split_and!; [done..| |].
  - intros p Hp. apply (Hget 3%nat); [done|].
    intros j Hj Hpj. apply lookup_lt_Some in Hpj.
    rewrite length_fmap, Hfour in Hpj. lia.
  - assert (forall i, (i < 4)%nat ->
              rank_tier 4 i <> Gold /\ rank_tier 4 i <> Silver) as Hnone.
    { intros i Hi. destruct i as [|[|[|[|i]]]]; [done..|lia]. }
    intros p.
    assert (forall t, titles !! p = Some t -> t <> Gold /\ t <> Silver) as Ht.
    { intros t (i & Hp & ->)%Hfrom. apply Hnone.
      apply lookup_lt_Some in Hp. by rewrite length_fmap, Hfour in Hp. }
    destruct (titles !! p) as [t|]; [|done].
    destruct (Ht t eq_refl). split; congruence.
Qed.

Lemma fourth_of_four_is_bronze_witness :
  exists titles,
    assign_titles four_players = Some titles
    /\ titles !! "p3"%string = Some Bronze
    /\ titles !! "p0"%string <> Some Gold.
Proof.
  destruct (fourth_of_four_is_bronze four_players eq_refl)
    as (titles & Hrun & _ & _ & _ & Hbronze & Hnone).
  exists titles. split_and!; [exact Hrun | by apply Hbronze | apply Hnone].
Defined.

(** ** Runs of the two functions *)

Example ten_players_titles :
  assign_titles ten_players
  = Some (list_to_map
            [("p0"%string, Challenger); ("p1"%string, Master);
             ("p2"%string, Master); ("p3"%string, Gold); ("p4"%string, Gold);
             ("p5"%string, Silver); ("p6"%string, Silver);
             ("p7"%string, Bronze); ("p8"%string, Bronze);
             ("p9"%string, Bronze)]).
Proof. vm_compute. reflexivity. Qed.

Example four_players_titles :
  assign_titles four_players
  = Some (list_to_map
            [("p0"%string, Challenger); ("p1"%string, Master);
             ("p2"%string, Master); ("p3"%string, Bronze)]).
Proof. vm_compute. reflexivity. Qed.

(** The three games of [sample_row]: every call is made on the ratings
    that the call before it wrote. *)
Example sample_row_calls :
  rate_calls <$> run_engine toy_rate [sample_row] 4 1
  = Some [mkCall (mkRating 4 1, mkRating 4 1)
                 (mkRating (21 # 4) 1, mkRating 4 1) Ranks01;
          mkCall (mkRating (17 # 4) (1 # 2), mkRating (17 # 4) (1 # 2))
                 (mkRating 5 (1 # 2), mkRating (15 # 4) (1 # 2)) Ranks01;
          mkCall (mkRating (9 # 2) (1 # 4), mkRating (9 # 2) (1 # 4))
                 (mkRating (19 # 4) (1 # 4), mkRating (7 # 2) (1 # 4)) Ranks10].
Proof. vm_compute. reflexivity. Qed.

(** Ana on both teams: the one entry of Ana is read for both cells, and
    of the two ratings written for her the one of team 2, written last,
    stays. *)
Example both_teams_run :
  run_engine toy_rate [mkRow "Ana" "Bo" "Dee" "Ana" 1 0] 4 1
  = Some (mkEngine
            [("Charlie"%string, mkRating (21 # 4) 1);
             ("Ana"%string, mkRating (15 # 4) (1 # 2));
             ("Bo"%string, mkRating (17 # 4) (1 # 2));
             ("Dee"%string, mkRating (15 # 4) (1 # 2))]
            [mkCall (mkRating 4 1, mkRating 4 1)
                    (mkRating 4 1, mkRating 4 1) Ranks01]).
Proof. vm_compute. reflexivity. Qed.

(** * More about the rating engine *)

Lemma first_seen_prefix seen ps : seen `prefix_of` first_seen seen ps.
Proof.
  induction ps as [|q ps IH] using rev_ind; [done|].
  rewrite first_seen_snoc. case_decide; [done|].
  by apply prefix_app_r.
Qed.

Section EngineMore.
Variable rate :
  Rating * Rating -> Rating * Rating -> Ranks ->
  (Rating * Rating) * (Rating * Rating).
Variables starting_mu starting_sigma : Q.

Abbreviation init_players := (init_players starting_mu starting_sigma).
Abbreviation process_row := (process_row rate starting_mu starting_sigma).
Abbreviation process_rows := (process_rows rate starting_mu starting_sigma).

Implicit Types (d : list (string * Rating)) (row : Row) (st : Engine).

Lemma init_players_get_other row d p :
  p ∉ row_players row -> Dict.get p (init_players row d) = Dict.get p d.
Proof.
  intros Hp. unfold init_players. rewrite init_fold_get.
  destruct (Dict.get p d); [done|]. by rewrite decide_False.
Qed.

Lemma process_row_get_other row st p :
  p ∉ row_players row ->
  exists st',
    process_row row st = Some st'
    /\ Dict.get p (ratings st') = Dict.get p (ratings st).
Proof.
  intros Hp.
  destruct (process_row_spec rate starting_mu starting_sigma row st)
    as (calls & d' & Hrow & Hchain & _).
  eexists. split; [exact Hrow|]. cbn [ratings].
  rewrite (game_chain_get_other rate _ _ _ _ _ Hchain Hp).
  by apply init_players_get_other.
Qed.

Lemma process_row_no_games row st :
  team_1_score row <= 0 ->
  team_2_score row <= 0 ->
  process_row row st
  = Some (mkEngine (init_players row (ratings st)) (rate_calls st)).
Proof.
  intros H1 H2. unfold process_row.
  replace (Z.to_nat (team_1_score row)) with 0%nat by lia.
  by replace (Z.to_nat (team_2_score row)) with 0%nat by lia.
Qed.


Lemma process_rows_untouched df st p :
  Forall (fun row => p ∉ row_players row
                     \/ (team_1_score row <= 0 /\ team_2_score row <= 0)) df ->
  exists st',
    process_rows df st = Some st'
    /\ Dict.get p (ratings st')
       = match Dict.get p (ratings st) with
         | Some r => Some r
         | None => if decide (p ∈ flat_map row_players df)
                   then Some (mkRating starting_mu starting_sigma)
                   else None
         end.
Proof.
  intros Hdf. revert st. induction Hdf as [|row df Hrow _ IH]; intros st.
  - exists st. split; [done|]. cbn [flat_map].
    destruct (Dict.get p (ratings st)); [done|].
    rewrite decide_False; [done|]. apply not_elem_of_nil.
  - assert (exists st1,
              process_row row st = Some st1
              /\ Dict.get p (ratings st1)
                 = match Dict.get p (ratings st) with
                   | Some r => Some r
                   | None => if decide (p ∈ row_players row)
                             then Some (mkRating starting_mu starting_sigma)
                             else None
                   end) as (st1 & Hst1 & Hget1).
    { destruct (decide (p ∈ row_players row)) as [Hin|Hnin].
      - destruct Hrow as [?|[H1 H2]]; [done|].
        eexists. split; [by apply process_row_no_games|]. cbn [ratings].
        unfold init_players. rewrite init_fold_get.
        destruct (Dict.get p (ratings st)); [done|]. by rewrite decide_True.
      - destruct (process_row_get_other row st p Hnin) as (st1 & Hst1 & Hget1).
        exists st1. split; [done|]. rewrite Hget1.
        by destruct (Dict.get p (ratings st)). }
    destruct (IH st1) as (st' & Hrun & Hget).
    exists st'.
    change (process_rows (row :: df) st)
      with (process_row row st ≫= process_rows df).
    rewrite Hst1. cbn [mbind option_bind flat_map]. split; [done|].
    rewrite Hget, Hget1. destruct (Dict.get p (ratings st)); [done|].
    destruct (decide (p ∈ row_players row)) as [Hin|Hnin].
    + rewrite decide_True; [done|]. apply elem_of_app. by left.
    + destruct (decide (p ∈ flat_map row_players df)) as [Hin'|Hnin'].
      * rewrite decide_True; [done|]. apply elem_of_app. by right.
      * rewrite decide_False; [done|]. rewrite elem_of_app. tauto.
Qed.
End EngineMore.

Lemma first_seen_length seen ps :
  (length (first_seen seen ps) <= length seen + length ps)%nat.
Proof.
  induction ps as [|q ps IH] using rev_ind; [simpl; lia|].
  rewrite first_seen_snoc, length_app. simpl.
  case_decide; [lia|]. rewrite length_app. simpl. lia.
Qed.

Lemma row_players_flat_length df :
  length (flat_map row_players df) = (4 * length df)%nat.
Proof. induction df as [|row df IH]; [done|]. cbn [flat_map]. rewrite length_app, IH. simpl. lia. Qed.

Lemma elem_of_row_players_flat df p :
  p ∈ flat_map row_players df <-> exists row, row ∈ df /\ p ∈ row_players row.
Proof.
  rewrite list_elem_of_In, in_flat_map. split.
  - intros (row & Hrow & Hp). exists row. by rewrite !list_elem_of_In.
  - intros (row & Hrow & Hp). exists row. by rewrite <- !list_elem_of_In.
Qed.

(** X1. The players of the ranking are Charlie and the players named in
    the rows, each of them once, whatever the scores; the ranking is never
    empty and has at most one item more than four per row. *)
Theorem ranking_lists_charlie_and_the_rows rate df starting_mu starting_sigma :
  exists ranking,
    calculate_team_trueskill rate df starting_mu starting_sigma = Some ranking
    /\ NoDup ranking.*1
    /\ (forall p, p ∈ ranking.*1 <->
          p = "Charlie"%string \/ exists row, row ∈ df /\ p ∈ row_players row)
    /\ (1 <= length ranking <= 1 + 4 * length df)%nat.
Proof.
  destruct (run_engine_spec rate starting_mu starting_sigma df)
    as (st & Hrun & Hkeys & _).
  exists (sort_values_desc (rounded_ratings (ratings st))).
  assert ((sort_values_desc (rounded_ratings (ratings st))).*1
          ≡ₚ Dict.keys (ratings st)) as Hperm.
  { rewrite sort_values_desc_perm. unfold rounded_ratings.
    by rewrite <- list_fmap_compose. }
  split_and!.
  - unfold calculate_team_trueskill. by rewrite Hrun.
  - rewrite Hperm, Hkeys. apply NoDup_first_seen, NoDup_singleton.
  - intros p. rewrite Hperm, Hkeys, elem_of_first_seen, list_elem_of_singleton.
    by rewrite elem_of_row_players_flat.
  - apply Permutation_length in Hperm. rewrite length_fmap in Hperm.
    rewrite Hperm, Hkeys.
    pose proof (first_seen_prefix ["Charlie"%string] (flat_map row_players df)) as Hpre.
    apply prefix_length in Hpre. simpl in Hpre. lia.
  - apply Permutation_length in Hperm. rewrite length_fmap in Hperm.
    rewrite Hperm, Hkeys.
    pose proof (first_seen_length ["Charlie"%string] (flat_map row_players df)) as Hlen.
    rewrite row_players_flat_length in Hlen. simpl in Hlen. lia.
Qed.


(** X3. A row changes nothing for the players it does not name: their
    entries, if any, hold the same rating after the row as before, whatever
    the scores. The keys that were in the dictionary before the row are
    still its first keys, in the same order. *)
Theorem row_leaves_other_players_alone rate starting_mu starting_sigma row st :
  exists st',
    process_row rate starting_mu starting_sigma row st = Some st'
    /\ (forall p, p ∉ row_players row ->
          Dict.get p (ratings st') = Dict.get p (ratings st))
    /\ Dict.keys (ratings st) `prefix_of` Dict.keys (ratings st').
Proof.
  destruct (process_row_spec rate starting_mu starting_sigma row st)
    as (calls & d' & Hrow & Hchain & _ & Hkeys).
  eexists. split_and!; [exact Hrow| |].
  - intros p Hp. cbn [ratings].
    rewrite (game_chain_get_other _ _ _ _ _ _ Hchain Hp).
    by apply init_players_get_other.
  - cbn [ratings]. rewrite Hkeys. apply first_seen_prefix.
Qed.

(** X4. A player who plays no game, because every row that names them
    has no positive score, ends the run with the entry they started with:
    the seed [Rating(5.25, starting_sigma)] for Charlie, the
    [Rating(starting_mu, starting_sigma)] of the priors for a player
    named in some row, no entry for anybody else. Charlie is then listed
    with 5.25, and with the default priors 4 and 1 every other such
    player is listed with 4. (For other priors the listed value is the
    rounding of the mean that the library reads back from the rating it
    built, which need not be [starting_mu] to the last bit; nothing is
    said about it here.) *)
Theorem idle_player_keeps_initial_rating rate df starting_mu starting_sigma p :
  Forall (fun row => p ∉ row_players row
                     \/ (team_1_score row <= 0 /\ team_2_score row <= 0)) df ->
  exists st ranking,
    run_engine rate df starting_mu starting_sigma = Some st
    /\ calculate_team_trueskill rate df starting_mu starting_sigma = Some ranking
    /\ Dict.get p (ratings st)
       = (if decide (p = "Charlie"%string)
          then Some (mkRating (21 # 4) starting_sigma)
          else if decide (p ∈ flat_map row_players df)
               then Some (mkRating starting_mu starting_sigma)
               else None)
    /\ (p = "Charlie"%string -> (p, 21 # 4) ∈ ranking)
    /\ (starting_mu = 4 # 1 -> starting_sigma = 1 # 1 ->
        p <> "Charlie"%string -> p ∈ flat_map row_players df ->
        (p, 4 # 1) ∈ ranking).
Proof.
  intros Hidle.
  destruct (process_rows_untouched rate starting_mu starting_sigma df
              (initial_engine starting_sigma) p Hidle) as (st & Hrun & Hget).
  pose proof (run_engine_NoDup rate starting_mu starting_sigma df st Hrun) as Hnd.
  assert (Dict.get p (ratings st)
          = (if decide (p = "Charlie"%string)
             then Some (mkRating (21 # 4) starting_sigma)
             else if decide (p ∈ flat_map row_players df)
                  then Some (mkRating starting_mu starting_sigma)
                  else None)) as Hget'.
  { rewrite Hget. simpl. by destruct (decide (p = "Charlie"%string)). }
  assert (forall r, Dict.get p (ratings st) = Some r ->
            (p, round2 (mu r))
            ∈ sort_values_desc (rounded_ratings (ratings st))) as Hin.
  { intros r Hr. rewrite sort_values_desc_perm. unfold rounded_ratings.
    apply list_elem_of_fmap. exists (p, r). split; [done|].
    by apply get_elem_of. }
  exists st, (sort_values_desc (rounded_ratings (ratings st))). split_and!.
  - done.
  - unfold calculate_team_trueskill.
    change (run_engine rate df starting_mu starting_sigma = Some st) in Hrun.
    by rewrite Hrun.
  - done.
  - intros Hp. rewrite decide_True in Hget' by done.
    apply (Hin _ Hget').
  - intros Hmu Hsigma Hp Hrows.
    rewrite decide_False, decide_True in Hget' by done.
    pose proof (Hin _ Hget') as Hlisted. simpl in Hlisted.
    by rewrite Hmu in Hlisted.
Qed.

Lemma idle_player_keeps_initial_rating_witness :
  exists st ranking,
    run_engine toy_rate [no_charlie_row] 4 1 = Some st
    /\ calculate_team_trueskill toy_rate [no_charlie_row] 4 1 = Some ranking
    /\ Dict.get "Charlie" (ratings st) = Some (mkRating (21 # 4) 1)
    /\ ("Charlie"%string, 21 # 4) ∈ ranking.
Proof.
  destruct (idle_player_keeps_initial_rating toy_rate [no_charlie_row] 4 1 "Charlie")
    as (st & ranking & Hrun & Hcalc & Hget & Hcharlie & _).
  { apply (bool_decide_unpack _). vm_compute. exact I. }
  exists st, ranking.
  split_and!; [exact Hrun | exact Hcalc | exact Hget | exact (Hcharlie eq_refl)].
Defined.

(** X5. Rows added at the end of a data frame continue the run: the
    result is that of processing the new rows from the state the old rows
    left. The players the old rows put in the dictionary keep their
    places at its front, and the calls made for the old rows are the first
    calls of the longer run. *)
Theorem appended_rows_continue_the_run rate starting_mu starting_sigma pre post :
  exists st st',
    run_engine rate pre starting_mu starting_sigma = Some st
    /\ process_rows rate starting_mu starting_sigma post st = Some st'
    /\ run_engine rate (pre ++ post) starting_mu starting_sigma = Some st'
    /\ Dict.keys (ratings st) `prefix_of` Dict.keys (ratings st')
    /\ rate_calls st `prefix_of` rate_calls st'.
Proof.
  destruct (run_engine_spec rate starting_mu starting_sigma pre)
    as (st & Hpre & _ & _).
  destruct (process_rows_spec rate starting_mu starting_sigma post st)
    as (calls & d' & Hpost & Hkeys & _).
  exists st, (mkEngine d' (rate_calls st ++ calls)). split_and!.
  - done.
  - done.
  - unfold run_engine in *. by rewrite process_rows_app, Hpre.
  - cbn [ratings]. rewrite Hkeys. apply first_seen_prefix.
  - cbn [rate_calls]. by apply prefix_app_r.
Qed.

(** X6. One game, played once the players of the row have their entries,
    never fails. It leaves under each player of the row the rating that
    [rate] returned for the last cell in which the player stands: with
    four distinct players each one gets their own new rating, and a
    player named twice keeps the one written last. Nobody else changes
    and no key is added. *)
Theorem game_writes_back_by_cell rate starting_mu starting_sigma row ranks d log :
  exists teams st',
    read_teams row (init_players starting_mu starting_sigma row d) = Some teams
    /\ play_game rate row ranks
         (mkEngine (init_players starting_mu starting_sigma row d) log)
       = Some st'
    /\ rate_calls st' = log ++ [mkCall teams.1 teams.2 ranks]
    /\ (forall i p,
          row_players row !! i = Some p ->
          (forall j, (i < j)%nat -> row_players row !! j <> Some p) ->
          Dict.get p (ratings st')
          = team_slots (rate teams.1 teams.2 ranks) !! i)
    /\ (forall p, p ∉ row_players row ->
          Dict.get p (ratings st')
          = Dict.get p (init_players starting_mu starting_sigma row d))
    /\ Dict.keys (ratings st')
       = Dict.keys (init_players starting_mu starting_sigma row d).
Proof.
  set (d0 := init_players starting_mu starting_sigma row d).
  assert (forall p, p ∈ row_players row -> p ∈ Dict.keys d0) as Hall.
  { intros p Hp. by apply init_players_covers. }
  destruct (read_teams_Some row d0 Hall) as [teams Hteams].
  exists teams. eexists. split_and!.
  - done.
  - unfold play_game. cbn [ratings rate_calls]. rewrite Hteams. done.
  - done.
  - intros i p Hp Hlast. cbn [ratings]. by apply write_teams_get_last.
  - intros p Hp. cbn [ratings]. by apply write_teams_get_other.
  - cbn [ratings]. by apply write_teams_keys.
Qed.

(** ** Rounding keeps the order *)

Lemma round_half_even_tie n d :
  (2 * (n - round_half_even n d * Z.pos d) = Z.pos d ->
   Z.even (round_half_even n d) = true)
  /\ (2 * (n - round_half_even n d * Z.pos d) = - Z.pos d ->
      Z.even (round_half_even n d) = true).
Proof.
  unfold round_half_even.
  pose proof (Z.div_mod n (Z.pos d) ltac:(lia)) as Hdm.
  pose proof (Z.mod_pos_bound n (Z.pos d) ltac:(lia)) as Hr.
  set (q := n / Z.pos d) in *. set (r := n mod Z.pos d) in *.
  destruct (Z.compare_spec (2 * r) (Z.pos d)) as [E|E|E].
  - destruct (Z.even q) eqn:Eq.
    + split; [done | intros; nia].
    + split; [intros; nia|]. intros _.
      replace (q + 1) with (Z.succ q) by lia.
      by rewrite Z.even_succ, <- Z.negb_even, Eq.
  - split; intros; nia.
  - split; intros; nia.
Qed.

Lemma round_half_even_mono n1 d1 n2 d2 :
  n1 * Z.pos d2 <= n2 * Z.pos d1 ->
  round_half_even n1 d1 <= round_half_even n2 d2.
Proof.
  intros Hle.
  pose proof (round_half_even_nearest n1 d1) as N1.
  pose proof (round_half_even_nearest n2 d2) as N2.
  destruct (round_half_even_tie n1 d1) as [_ T1].
  destruct (round_half_even_tie n2 d2) as [T2 _].
  set (k1 := round_half_even n1 d1) in *.
  set (k2 := round_half_even n2 d2) in *.
  destruct (Z_le_gt_dec k1 k2) as [|Hgt]; [done|]. exfalso.
  assert (2 * k1 * Z.pos d1 - Z.pos d1 <= 2 * n1) as L1 by lia.
  assert (2 * n2 <= 2 * k2 * Z.pos d2 + Z.pos d2) as L2 by lia.
  assert ((2 * k1 - 1) * (Z.pos d1 * Z.pos d2) <= 2 * n1 * Z.pos d2) as M1 by nia.
  assert (2 * n2 * Z.pos d1 <= (2 * k2 + 1) * (Z.pos d1 * Z.pos d2)) as M2 by nia.
  assert (0 < Z.pos d1 * Z.pos d2) as Hpos by lia.
  assert ((2 * k1 - 1) * (Z.pos d1 * Z.pos d2)
          <= (2 * k2 + 1) * (Z.pos d1 * Z.pos d2)) as M3 by lia.
  assert (k1 = k2 + 1) as Ek by nia.
  assert (2 * n1 * Z.pos d2 = (2 * k1 - 1) * (Z.pos d1 * Z.pos d2)) as E1.
  { subst k1. nia. }
  assert (2 * n2 * Z.pos d1 = (2 * k2 + 1) * (Z.pos d1 * Z.pos d2)) as E2.
  { rewrite Ek in *. nia. }
  assert (Z.even k1 = true) as Ev1 by (apply T1; nia).
  assert (Z.even k2 = true) as Ev2 by (apply T2; nia).
  rewrite Ek in Ev1. replace (k2 + 1) with (Z.succ k2) in Ev1 by lia.
  rewrite Z.even_succ, <- Z.negb_even, Ev2 in Ev1. done.
Qed.

Lemma round2_mono x y : (x <= y)%Q -> (round2 x <= round2 y)%Q.
Proof.
  intros Hle. unfold round2. rewrite !Qred_correct.
  unfold Qle in *. cbn [Qnum Qden].
  apply Z.mul_le_mono_nonneg_r; [lia|].
  apply round_half_even_mono. lia.
Qed.

Lemma StronglySorted_lookup {A} (R : A -> A -> Prop) (l : list A) i j a b :
  StronglySorted R l -> (i < j)%nat ->
  l !! i = Some a -> l !! j = Some b -> R a b.
Proof.
  intros Hs. revert i j. induction Hs as [|x l Hs IH Hall]; intros i j Hij Ha Hb.
  - by rewrite lookup_nil in Ha.
  - destruct j as [|j]; [lia|]. destruct i as [|i].
    + injection Ha as <-. simpl in Hb. rewrite Forall_forall in Hall.
      apply Hall. by apply list_elem_of_lookup_2 in Hb.
    + simpl in Ha, Hb. apply (IH i j); [lia|done..].
Qed.

(** X7. The rounding does not turn the order of the means around. When
    the ranking lists [p] above [q], the mean of [q] is at most a
    hundredth above the mean of [p], and it is above it at all only when
    both round to the same value. *)
Theorem ranking_follows_the_means rate df starting_mu starting_sigma :
  exists st ranking,
    run_engine rate df starting_mu starting_sigma = Some st
    /\ calculate_team_trueskill rate df starting_mu starting_sigma = Some ranking
    /\ forall i j p q x y rp rq,
         (i < j)%nat ->
         ranking !! i = Some (p, x) ->
         ranking !! j = Some (q, y) ->
         Dict.get p (ratings st) = Some rp ->
         Dict.get q (ratings st) = Some rq ->
         (x = round2 (mu rp) /\ y = round2 (mu rq))
         /\ (mu rq <= mu rp + (1 # 100))%Q
         /\ ((mu rp < mu rq)%Q -> (x == y)%Q).
Proof.
  destruct (run_engine_spec rate starting_mu starting_sigma df)
    as (st & Hrun & _ & _).
  pose proof (run_engine_NoDup rate starting_mu starting_sigma df st Hrun) as Hnd.
  exists st, (sort_values_desc (rounded_ratings (ratings st))). split_and!.
  - done.
  - unfold calculate_team_trueskill. by rewrite Hrun.
  - intros i j p q x y rp rq Hij Hi Hj Hp Hq.
    assert (forall k a z r,
              sort_values_desc (rounded_ratings (ratings st)) !! k = Some (a, z) ->
              Dict.get a (ratings st) = Some r -> z = round2 (mu r)) as Hval.
    { intros k a z r Hk Ha. apply list_elem_of_lookup_2 in Hk.
      rewrite sort_values_desc_perm in Hk. unfold rounded_ratings in Hk.
      apply list_elem_of_fmap in Hk as ([a' r'] & [= -> ->] & Hin).
      apply get_elem_of in Hin; [|done]. simpl in *. congruence. }
    pose proof (Hval _ _ _ _ Hi Hp) as Hx.
    pose proof (Hval _ _ _ _ Hj Hq) as Hy.
    pose proof (StronglySorted_lookup desc _ i j _ _
                  (sort_values_desc_sorted _) Hij Hi Hj) as Hyx.
    unfold desc in Hyx. simpl in Hyx.
    split_and!; [done..| |].
    + destruct (round2_nearest (mu rp)) as (kp & Ekp & Hcp).
      destruct (round2_nearest (mu rq)) as (kq & Ekq & Hcq).
      rewrite <- Ekp, <- Hx in Hcp. rewrite <- Ekq, <- Hy in Hcq.
      apply Qabs_Qle_condition in Hcp as [Hp1 Hp2].
      apply Qabs_Qle_condition in Hcq as [Hq1 Hq2].
      lra.
    + intros Hlt. apply Qle_antisym; [|done].
      rewrite Hx, Hy. apply round2_mono. by apply Qlt_le_weak.
Qed.

(** * More about the tier assigner *)

Lemma rank_tier_inv total_players i :
  (rank_tier total_players i = Challenger -> i = 0%nat)
  /\ (rank_tier total_players i = Master -> i = 1%nat \/ i = 2%nat)
  /\ (tier_level (rank_tier total_players i) <= 2 -> 3 <= i)%nat.
Proof.
  unfold rank_tier. cbn zeta.
  destruct (decide (i = 0%nat)) as [->|H0]; [by split_and!; simpl; try lia|].
  destruct (decide (i <= 2)%nat) as [H2|H2];
    [split_and!; [done | intros _; lia | simpl; lia]|].
  repeat case_decide; split_and!; (done || lia).
Qed.

Lemma rank_tier_mono total_players i j :
  (i <= j)%nat ->
  (tier_level (rank_tier total_players j)
   <= tier_level (rank_tier total_players i))%nat.
Proof.
  intros Hij. unfold rank_tier. cbn zeta.
  repeat case_decide; simpl; lia.
Qed.

Lemma fmap_seq_const {A} (f : nat -> A) (x : A) start len :
  (forall i, (start <= i < start + len)%nat -> f i = x) ->
  f <$> seq start len = replicate len x.
Proof.
  revert start. induction len as [|len IH]; intros start Hf; [done|].
  cbn [seq replicate]. rewrite fmap_cons, Hf by lia. f_equal.
  apply IH. intros i Hi. apply Hf. lia.
Qed.

Lemma tier_column_ranks total_players :
  tier_column total_players = rank_tier total_players <$> seq 0 total_players.
Proof.
  unfold tier_column. cbn zeta.
  destruct (decide (total_players <= 3)%nat) as [Hsmall|Hbig].
  - destruct total_players as [|[|[|[|n]]]]; [done..|lia].
  - destruct (band_counts (Z.of_nat total_players - 3)) as (Hg & Hs & Hb & Hsum);
      [lia|].
    set (g := Z.to_nat (gold_count (Z.of_nat total_players - 3))).
    set (sv := Z.to_nat (silver_count (Z.of_nat total_players - 3))).
    set (b := Z.to_nat (bronze_count (Z.of_nat total_players - 3))).
    assert (total_players = (3 + (g + (sv + b)))%nat) as Htotal by lia.
    rewrite take_ge.
    2:{ rewrite !length_app, !length_replicate. simpl. lia. }
    rewrite Htotal at 2. rewrite !seq_app, !fmap_app.
    rewrite (fmap_seq_const _ Gold (0 + 3) g), (fmap_seq_const _ Silver _ sv),
      (fmap_seq_const _ Bronze _ b); [done|..].
    + intros i Hi. apply rank_tier_bronze; lia.
    + intros i Hi. apply rank_tier_silver; lia.
    + intros i Hi. apply rank_tier_gold; lia.
Qed.

Lemma tier_column_lookup total_players i :
  (i < total_players)%nat ->
  tier_column total_players !! i = Some (rank_tier total_players i).
Proof.
  intros Hi. rewrite tier_column_ranks, list_lookup_fmap, lookup_seq_lt by done.
  done.
Qed.

Lemma last_occurrence (l : list string) p :
  p ∈ l ->
  exists i, l !! i = Some p /\ forall j, (i < j)%nat -> l !! j <> Some p.
Proof.
  induction l as [|x l IH] using rev_ind; intros Hp.
  - by apply elem_of_nil in Hp.
  - destruct (decide (x = p)) as [->|Hne].
    + exists (length l). split.
      * by rewrite lookup_app_r, Nat.sub_diag by lia.
      * intros j Hj Hlook. apply lookup_lt_Some in Hlook.
        rewrite length_app in Hlook. simpl in Hlook. lia.
    + apply elem_of_app in Hp as [Hp|Hp];
        [|apply list_elem_of_singleton in Hp; congruence].
      destruct (IH Hp) as (i & Hi & Hlast). exists i. split.
      * by apply lookup_app_l_Some.
      * intros j Hj Hlook. apply lookup_app_Some in Hlook as [Hl|[_ Hl]].
        -- by apply (Hlast j).
        -- apply list_lookup_singleton_Some in Hl as [_ ?]. congruence.
Qed.

Lemma titles_by_rank ratings_series titles :
  assign_titles ratings_series = Some titles ->
  NoDup ratings_series.*1 ->
  forall i p, ratings_series.*1 !! i = Some p ->
    titles !! p = Some (rank_tier (length ratings_series) i).
Proof.
  intros Hrun Hnd i p Hp.
  destruct (assign_titles_ranks ratings_series) as (titles' & Hrun' & _ & Hget & _).
  rewrite Hrun in Hrun'. injection Hrun' as <-.
  apply Hget; [done|]. intros j Hj Hpj.
  pose proof (NoDup_lookup _ i j p Hnd Hp Hpj). lia.
Qed.

Lemma tier_column_length total_players :
  length (tier_column total_players) = total_players.
Proof. by rewrite tier_column_ranks, length_fmap, length_seq. Qed.

(** X8. The crown and the gems go to the top ranks only: a player with
    the crown stands at rank 0, a player with a gem at rank 1 or 2, and a
    player with a medal at rank 3 or lower, so that a ranking of up to
    three players has no medal at all. With distinct players the converse
    holds: the player of rank 0 has the crown and the players of ranks 1
    and 2 have a gem. *)
Theorem top_titles_go_to_top_ranks ratings_series :
  exists titles,
    assign_titles ratings_series = Some titles
    /\ (forall p, titles !! p = Some Challenger ->
          ratings_series.*1 !! 0%nat = Some p)
    /\ (forall p, titles !! p = Some Master ->
          ratings_series.*1 !! 1%nat = Some p
          \/ ratings_series.*1 !! 2%nat = Some p)
    /\ (forall p t, titles !! p = Some t ->
          t = Gold \/ t = Silver \/ t = Bronze ->
          exists i, (3 <= i)%nat /\ ratings_series.*1 !! i = Some p)
    /\ ((length ratings_series <= 3)%nat ->
        forall p t, titles !! p = Some t -> t = Challenger \/ t = Master)
    /\ (NoDup ratings_series.*1 ->
        (forall p, ratings_series.*1 !! 0%nat = Some p ->
           titles !! p = Some Challenger)
        /\ (forall p, ratings_series.*1 !! 1%nat = Some p
                      \/ ratings_series.*1 !! 2%nat = Some p ->
              titles !! p = Some Master)).
Proof.
  destruct (assign_titles_ranks ratings_series) as (titles & Hrun & _ & _ & Hfrom).
  exists titles.
  assert (forall p t, titles !! p = Some t ->
            t = Gold \/ t = Silver \/ t = Bronze ->
            exists i, (3 <= i)%nat /\ ratings_series.*1 !! i = Some p) as Hmedal.
  { intros p t (i & Hp & ->)%Hfrom Ht. exists i. split; [|done].
    apply (rank_tier_inv (length ratings_series) i).
    destruct Ht as [-> | [-> | ->]]; simpl; lia. }
  split_and!; [done| | |exact Hmedal| |].
  - intros p (i & Hp & Ht)%Hfrom. symmetry in Ht.
    apply rank_tier_inv in Ht as ->. done.
  - intros p (i & Hp & Ht)%Hfrom. symmetry in Ht.
    apply rank_tier_inv in Ht as [-> | ->]; auto.
  - intros Hsmall p t Ht. destruct t; auto;
      (destruct (Hmedal p _ Ht) as (i & Hi & Hp); [auto|];
       apply lookup_lt_Some in Hp; rewrite length_fmap in Hp; lia).
  - intros Hnd. split.
    + intros p Hp. by rewrite (titles_by_rank _ _ Hrun Hnd 0%nat p Hp).
    + intros p [Hp|Hp].
      * by rewrite (titles_by_rank _ _ Hrun Hnd 1%nat p Hp).
      * by rewrite (titles_by_rank _ _ Hrun Hnd 2%nat p Hp).
Qed.

(** X9. The three bands are balanced: whatever the number of players
    left after the top three, the gold band is not larger than the silver
    band, the silver band not larger than the bronze band, and the bronze
    band has at most one place more than the gold band. *)
Theorem bands_are_balanced remaining_players :
  gold_count remaining_players <= silver_count remaining_players
  /\ silver_count remaining_players <= bronze_count remaining_players
  /\ bronze_count remaining_players <= gold_count remaining_players + 1.
Proof.
  unfold gold_count, silver_count, bronze_count, base_count, remainder.
  pose proof (Z.mod_pos_bound remaining_players 3 ltac:(lia)) as Hr.
  repeat case_decide; lia.
Qed.

(** X10. The titles follow the ranks: of two players of a ranking of
    distinct players, the one at the better rank never has the lower
    title, in the order bronze, silver, gold, gem, crown. *)
Theorem better_rank_never_lower_title ratings_series :
  exists titles,
    assign_titles ratings_series = Some titles
    /\ (NoDup ratings_series.*1 ->
        forall i j p q tp tq,
          (i <= j)%nat ->
          ratings_series.*1 !! i = Some p ->
          ratings_series.*1 !! j = Some q ->
          titles !! p = Some tp ->
          titles !! q = Some tq ->
          (tier_level tq <= tier_level tp)%nat).
Proof.
  destruct (assign_titles_ranks ratings_series) as (titles & Hrun & _).
  exists titles. split; [done|].
  intros Hnd i j p q tp tq Hij Hp Hq Htp Htq.
  rewrite (titles_by_rank _ _ Hrun Hnd i p Hp) in Htp.
  rewrite (titles_by_rank _ _ Hrun Hnd j q Hq) in Htq.
  injection Htp as <-. injection Htq as <-. by apply rank_tier_mono.
Qed.

Lemma titles_column ratings_series titles :
  assign_titles ratings_series = Some titles ->
  NoDup ratings_series.*1 ->
  (fun p => titles !! p) <$> ratings_series.*1
  = Some <$> tier_column (length ratings_series).
Proof.
  intros Hrun Hnd. apply list_eq. intros i.
  rewrite (list_lookup_fmap (fun p => titles !! p)), (list_lookup_fmap Some).
  destruct (ratings_series.*1 !! i) as [p|] eqn:Hp; simpl.
  - rewrite (titles_by_rank _ _ Hrun Hnd i p Hp), tier_column_lookup; [done|].
    apply lookup_lt_Some in Hp. by rewrite length_fmap in Hp.
  - apply lookup_ge_None in Hp. rewrite length_fmap in Hp.
    rewrite (proj2 (lookup_ge_None (tier_column _) i)); [done|].
    by rewrite tier_column_length.
Qed.

(** X11. Read from the first rank to the last, the titles of a ranking
    of distinct players are one crown, two gems, then as many gold, silver
    and bronze medals as the bands have places, cut to the length of the
    ranking. *)
Theorem titles_in_rank_order ratings_series :
  exists titles,
    assign_titles ratings_series = Some titles
    /\ length (tier_column (length ratings_series)) = length ratings_series
    /\ (NoDup ratings_series.*1 ->
        (fun p => titles !! p) <$> ratings_series.*1
        = Some <$> tier_column (length ratings_series)).
Proof.
  destruct (assign_titles_ranks ratings_series) as (titles & Hrun & _).
  exists titles. split_and!; [done|apply tier_column_length|].
  by apply titles_column.
Qed.

(** X12. The test [idx < total_players] keeps a band loop inside the
    ranking. With [total_players] at most the length of the index the
    loop never fails, whatever its count: it gives a title to the ranks
    from [idx] on, stops at [total_players], and from a rank at or past
    [total_players] it changes nothing. *)
Theorem band_loop_stays_in_range count t index total_players titles idx :
  (total_players <= length index)%nat ->
  exists titles' idx',
    tier_loop count t index total_players (titles, idx) = Some (titles', idx')
    /\ idx' = (idx `max` ((idx + count) `min` total_players))%nat
    /\ dom titles' = dom titles ∪ list_to_set (take (idx' - idx) (drop idx index))
    /\ ((total_players <= idx)%nat -> titles' = titles).
Proof.
  intros Htotal. revert titles idx.
  induction count as [|count IH]; intros titles idx.
  - exists titles, idx. split_and!; [done|lia| |done].
    rewrite Nat.sub_diag, take_0. set_solver.
  - cbn [tier_loop fst snd]. case_decide as Hlt.
    + destruct (lookup_lt_is_Some_2 index idx ltac:(lia)) as [p Hp].
      unfold set_title. rewrite Hp. cbn [mbind option_bind].
      destruct (IH (<[p := t]> titles) (S idx)) as (titles' & idx' & Hrun & Hidx & Hdom & _).
      exists titles', idx'. split_and!; [done|lia| |lia].
      rewrite Hdom, dom_insert_L.
      replace (idx' - idx)%nat with (S (idx' - S idx)) by lia.
      rewrite (drop_S _ _ _ Hp). cbn [take]. rewrite list_to_set_cons.
      set_solver.
    + destruct (IH titles idx) as (titles' & idx' & Hrun & Hidx & Hdom & Hsame).
      exists titles', idx'. split_and!; [done|lia|done|done].
Qed.

Lemma band_loop_stays_in_range_witness :
  exists titles',
    tier_loop 5 Gold ten_players.*1 4 (∅, 3%nat) = Some (titles', 4%nat)
    /\ dom titles' = {["p3"%string]}.
Proof.
  destruct (band_loop_stays_in_range 5 Gold ten_players.*1 4 ∅ 3)
    as (titles' & idx' & Hrun & Hidx & Hdom & _); [simpl; lia|].
  exists titles'. simpl in Hidx. subst idx'. split; [exact Hrun|].
  rewrite Hdom, dom_empty_L. simpl. set_solver.
Defined.

(** X13. A name that stands at several ranks of the series has one
    title, that of the last of its ranks: every later assignment to a key
    overwrites the earlier one. *)
Theorem repeated_name_gets_its_last_rank ratings_series :
  exists titles,
    assign_titles ratings_series = Some titles
    /\ forall p, p ∈ ratings_series.*1 ->
         exists i,
           ratings_series.*1 !! i = Some p
           /\ (forall j, (i < j)%nat -> ratings_series.*1 !! j <> Some p)
           /\ titles !! p = tier_column (length ratings_series) !! i.
Proof.
  destruct (assign_titles_ranks ratings_series) as (titles & Hrun & _ & Hget & _).
  exists titles. split; [done|]. intros p Hp.
  destruct (last_occurrence _ _ Hp) as (i & Hi & Hlast).
  exists i. split_and!; [done..|].
  rewrite (Hget i p Hi Hlast), tier_column_lookup; [done|].
  apply lookup_lt_Some in Hi. by rewrite length_fmap in Hi.
Qed.

(** * The page *)

(** X14. The table of the page is always produced. It has the rows of
    the ranking, in the same order, each with a title; there is at least
    the row of Charlie; and the title column reads, from the top, one
    crown, two gems, then the gold, the silver and the bronze medals of
    the bands, cut to the number of rows. *)
Theorem leaderboard_has_a_title_for_every_row rate df :
  exists ranking board,
    calculate_team_trueskill rate df 4 1 = Some ranking
    /\ leaderboard rate df = Some board
    /\ (fun r => (r.1.2, r.2)) <$> board = ranking
    /\ board.*1.*1 = Some <$> tier_column (length board)
    /\ (1 <= length board)%nat
    /\ "Charlie"%string ∈ board.*1.*2.
Proof.
  destruct (run_engine_spec rate 4 1 df) as (st & Hrun & Hkeys & _).
  set (ranking := sort_values_desc (rounded_ratings (ratings st))).
  assert (calculate_team_trueskill rate df 4 1 = Some ranking) as Hcalc.
  { unfold calculate_team_trueskill. by rewrite Hrun. }
  assert (ranking.*1 ≡ₚ Dict.keys (ratings st)) as Hperm.
  { unfold ranking. rewrite sort_values_desc_perm. unfold rounded_ratings.
    by rewrite <- list_fmap_compose. }
  assert (NoDup ranking.*1) as Hnd.
  { rewrite Hperm, Hkeys. apply NoDup_first_seen, NoDup_singleton. }
  destruct (assign_titles_ranks ranking) as (titles & Htitles & _).
  set (board := (fun item : string * Q => (titles !! item.1, item.1, item.2))
                  <$> ranking).
  assert ((fun r : option Title * string * Q => (r.1.2, r.2)) <$> board = ranking)
    as Hrows.
  { unfold board. rewrite <- list_fmap_compose.
    rewrite <- (list_fmap_id ranking) at 2. apply list_fmap_ext.
    by intros i [p x] _. }
  assert (board.*1.*2 = ranking.*1) as Hplayers.
  { unfold board. by rewrite <- !list_fmap_compose. }
  exists ranking, board. split_and!.
  - done.
  - unfold leaderboard. rewrite Hcalc. cbn [mbind option_bind].
    by rewrite Htitles.
  - done.
  - assert (length board = length ranking) as -> by apply length_fmap.
    rewrite <- (titles_column ranking titles Htitles Hnd).
    unfold board. by rewrite <- !list_fmap_compose.
  - unfold board. rewrite length_fmap.
    apply Permutation_length in Hperm. rewrite length_fmap in Hperm.
    rewrite Hperm, Hkeys.
    pose proof (first_seen_prefix ["Charlie"%string] (flat_map row_players df)) as Hpre.
    apply prefix_length in Hpre. simpl in Hpre. lia.
  - rewrite Hplayers, Hperm, Hkeys. apply elem_of_first_seen. left.
    by apply list_elem_of_singleton.
Qed.

(** ** More runs *)

(** A band loop told of more players than the index holds runs off its
    end. *)
Example band_loop_past_the_index :
  tier_loop 2 Gold ["p0"%string] 2 (∅, 0%nat) = None.
Proof. reflexivity. Qed.

(** A negative score gives no game. *)
Example negative_score_run :
  (fun st => call_ranks <$> rate_calls st) <$> run_engine toy_rate [negative_row] 4 1
  = Some [Ranks10].
Proof. vm_compute. reflexivity. Qed.

Example sample_leaderboard :
  exists board,
    leaderboard toy_rate [sample_row] = Some board
    /\ board.*1.*1 = [Some Challenger; Some Master; Some Master; Some Bronze]
    /\ board.*2 = [5 # 1; 17 # 4; 17 # 4; 15 # 4]
    /\ board !! 0%nat = Some (Some Challenger, "Charlie"%string, 5 # 1)
    /\ board !! 3%nat = Some (Some Bronze, "Dee"%string, 15 # 4).
Proof. eexists. split; [vm_compute; reflexivity|]. by split_and!. Qed.

(** The same name at two ranks: the title of the later rank stays. *)
Example repeated_name_titles :
  assign_titles [("p0"%string, 9 # 1); ("p1"%string, 8 # 1);
                 ("p2"%string, 7 # 1); ("p0"%string, 6 # 1)]
  = Some (list_to_map [("p0"%string, Bronze); ("p1"%string, Master);
                       ("p2"%string, Master)]).
Proof. vm_compute. reflexivity. Qed.
